(** * Polly: the orchestration core of packages/@pollyjs/core/src/polly.ts

    A shallow embedding of the [Polly] class: its mode accessors, the
    static plugin registration, [configure], the adapter manager
    ([connectTo], [disconnectFrom], [disconnect]), [stop], [flush] and
    [registerRequest].

    JavaScript objects become records, the adapters [Map] an
    insertion-ordered association list, the container registry a [gmap],
    and methods functions in a state-and-exception monad over the
    [World]: the fields of one instance, the process-wide statics of the
    module, and a log of every call made into a collaborator.

    The hooks and constructors of plugins, the logger and the listeners of
    user code are opaque: a call is logged and returns, it neither throws
    nor calls back into the instance.  Asynchronous work of a plugin is
    given by how the promise it returns ends. *)

From Stdlib Require Import Ascii String.
From stdpp Require Import gmap strings list.

Open Scope string_scope.

(** ** Values *)

(** What a [throw] or a rejected promise carries. *)
Inductive Error :=
| ReferenceError (ident : string)   (* reading an identifier no scope binds *)
| TypeError (msg : string)          (* a property read on [undefined] *)
| PollyError (msg : string)         (* thrown by [assert] *)
| LookupError (key : string)        (* thrown by [container.lookup] *)
| Rejection (reason : string).      (* the reason of an awaited promise that rejected *)

(** A plugin factory (a class): its identity as an object, the capability
    it provides ([adapter] or [persister]) and its [name]. *)
Record Factory := { fac_ref : nat; fac_type : string; fac_name : string }.

(** [nameOrFactory]: the two shapes told apart by
    [typeof nameOrFactory === 'function']. *)
Inductive NameOrFactory :=
| ByName (name : string)
| ByFactory (F : Factory).

(** The object built by [new Factory(polly)]. *)
Record Instance := { inst_ref : nat; inst_of : Factory }.

(** [PollyConfig]: a plain object, any of whose properties may be absent. *)
Record PollyConfig := {
  cfg_mode : option string;
  cfg_adapters : option (list NameOrFactory);
  cfg_persister : option NameOrFactory
}.

(** A tracked request and the identity of its completion promise. *)
Record PollyRequest := { req_ref : nat; req_promise : nat }.

(** A listener of the static event emitter: either the callback
    [container => container.register(Factory)] built by [Polly.register],
    or a function supplied by user code. *)
Inductive Listener :=
| InstallFactory (ref : nat) (F : Factory)
| ExternalListener (ref : nat).

(** Calls into collaborators, in the order they are made.  A hook call is
    tagged with the name the adapter is stored under. *)
Inductive Event :=
| LoggerConnect
| LoggerDisconnect
| AdapterConnect (name : string) (i : Instance)
| AdapterDisconnect (name : string) (i : Instance)
| Persist (i : Instance)
| ListenerCalled (event : string) (l : Listener).

(** How a promise ends. *)
Inductive Settlement :=
| Fulfils
| Rejects (reason : string)
| NeverSettles.

(** The state of a promise at some moment. *)
Inductive PState := Pending | Fulfilled | Rejected.

#[global] Instance Error_eq_dec : EqDecision Error.
Proof. solve_decision. Defined.
#[global] Instance Factory_eq_dec : EqDecision Factory.
Proof. solve_decision. Defined.
#[global] Instance NameOrFactory_eq_dec : EqDecision NameOrFactory.
Proof. solve_decision. Defined.
#[global] Instance Instance_eq_dec : EqDecision Instance.
Proof. solve_decision. Defined.
#[global] Instance Listener_eq_dec : EqDecision Listener.
Proof. solve_decision. Defined.
#[global] Instance Event_eq_dec : EqDecision Event.
Proof. solve_decision. Defined.
#[global] Instance PState_eq_dec : EqDecision PState.
Proof. solve_decision. Defined.
#[global] Instance PollyRequest_eq_dec : EqDecision PollyRequest.
Proof. solve_decision. Defined.

(** JavaScript truthiness of the values tested by the class. *)
Definition truthy_string (s : string) : bool := negb (bool_decide (s = "")).

Definition truthy_mode (m : option string) : bool :=
  match m with Some s => truthy_string s | None => false end.

Definition truthy_ref (p : option NameOrFactory) : bool :=
  match p with
  | Some (ByName s) => truthy_string s
  | Some (ByFactory _) => true
  | None => false
  end.

(** ** The world *)

Record World := {
  (* module level: [FACTORY_REGISTRATION], [EVENT_EMITTER] *)
  FACTORY_REGISTRATION : list (Factory * Listener);
  EVENT_EMITTER : gmap string (list Listener);
  (* the environment: object identities handed out so far, calls made,
     and the promises that have settled ([true]: fulfilled) *)
  next_ref : nat;
  trace : list Event;
  settled : gmap nat bool;
  (* the instance *)
  config : PollyConfig;
  PAUSED_MODE : option string;
  container : gmap string Factory;
  adapters : list (string * Instance);
  persister : option Instance;
  _requests : list PollyRequest
}.

Definition with_registration (r : list (Factory * Listener)) (w : World) : World :=
  {| FACTORY_REGISTRATION := r; EVENT_EMITTER := EVENT_EMITTER w;
     next_ref := next_ref w; trace := trace w; settled := settled w;
     config := config w; PAUSED_MODE := PAUSED_MODE w;
     container := container w; adapters := adapters w;
     persister := persister w; _requests := _requests w |}.

Definition with_emitter (e : gmap string (list Listener)) (w : World) : World :=
  {| FACTORY_REGISTRATION := FACTORY_REGISTRATION w; EVENT_EMITTER := e;
     next_ref := next_ref w; trace := trace w; settled := settled w;
     config := config w; PAUSED_MODE := PAUSED_MODE w;
     container := container w; adapters := adapters w;
     persister := persister w; _requests := _requests w |}.

Definition with_next_ref (n : nat) (w : World) : World :=
  {| FACTORY_REGISTRATION := FACTORY_REGISTRATION w;
     EVENT_EMITTER := EVENT_EMITTER w;
     next_ref := n; trace := trace w; settled := settled w;
     config := config w; PAUSED_MODE := PAUSED_MODE w;
     container := container w; adapters := adapters w;
     persister := persister w; _requests := _requests w |}.

Definition with_trace (t : list Event) (w : World) : World :=
  {| FACTORY_REGISTRATION := FACTORY_REGISTRATION w;
     EVENT_EMITTER := EVENT_EMITTER w;
     next_ref := next_ref w; trace := t; settled := settled w;
     config := config w; PAUSED_MODE := PAUSED_MODE w;
     container := container w; adapters := adapters w;
     persister := persister w; _requests := _requests w |}.

Definition with_settled (s : gmap nat bool) (w : World) : World :=
  {| FACTORY_REGISTRATION := FACTORY_REGISTRATION w;
     EVENT_EMITTER := EVENT_EMITTER w;
     next_ref := next_ref w; trace := trace w; settled := s;
     config := config w; PAUSED_MODE := PAUSED_MODE w;
     container := container w; adapters := adapters w;
     persister := persister w; _requests := _requests w |}.

Definition with_config (c : PollyConfig) (w : World) : World :=
  {| FACTORY_REGISTRATION := FACTORY_REGISTRATION w;
     EVENT_EMITTER := EVENT_EMITTER w;
     next_ref := next_ref w; trace := trace w; settled := settled w;
     config := c; PAUSED_MODE := PAUSED_MODE w;
     container := container w; adapters := adapters w;
     persister := persister w; _requests := _requests w |}.

Definition with_paused (p : option string) (w : World) : World :=
  {| FACTORY_REGISTRATION := FACTORY_REGISTRATION w;
     EVENT_EMITTER := EVENT_EMITTER w;
     next_ref := next_ref w; trace := trace w; settled := settled w;
     config := config w; PAUSED_MODE := p;
     container := container w; adapters := adapters w;
     persister := persister w; _requests := _requests w |}.

Definition with_container (c : gmap string Factory) (w : World) : World :=
  {| FACTORY_REGISTRATION := FACTORY_REGISTRATION w;
     EVENT_EMITTER := EVENT_EMITTER w;
     next_ref := next_ref w; trace := trace w; settled := settled w;
     config := config w; PAUSED_MODE := PAUSED_MODE w;
     container := c; adapters := adapters w;
     persister := persister w; _requests := _requests w |}.

Definition with_adapters (a : list (string * Instance)) (w : World) : World :=
  {| FACTORY_REGISTRATION := FACTORY_REGISTRATION w;
     EVENT_EMITTER := EVENT_EMITTER w;
     next_ref := next_ref w; trace := trace w; settled := settled w;
     config := config w; PAUSED_MODE := PAUSED_MODE w;
     container := container w; adapters := a;
     persister := persister w; _requests := _requests w |}.

Definition with_persister (p : option Instance) (w : World) : World :=
  {| FACTORY_REGISTRATION := FACTORY_REGISTRATION w;
     EVENT_EMITTER := EVENT_EMITTER w;
     next_ref := next_ref w; trace := trace w; settled := settled w;
     config := config w; PAUSED_MODE := PAUSED_MODE w;
     container := container w; adapters := adapters w;
     persister := p; _requests := _requests w |}.

Definition with_requests (r : list PollyRequest) (w : World) : World :=
  {| FACTORY_REGISTRATION := FACTORY_REGISTRATION w;
     EVENT_EMITTER := EVENT_EMITTER w;
     next_ref := next_ref w; trace := trace w; settled := settled w;
     config := config w; PAUSED_MODE := PAUSED_MODE w;
     container := container w; adapters := adapters w;
     persister := persister w; _requests := r |}.

(** ** The monad of method bodies *)

(** A body returns, throws, or (an [async] one) stays suspended on a
    promise that never settles. *)
Inductive Outcome (A : Type) :=
| Ok (a : A)
| Throw (e : Error)
| Stalled.
Arguments Ok {A} a.
Arguments Throw {A} e.
Arguments Stalled {A}.

Definition M (A : Type) : Type := World -> Outcome A * World.

Definition ret {A} (a : A) : M A := fun w => (Ok a, w).

Definition bind {A B} (m : M A) (k : A -> M B) : M B :=
  fun w =>
    match m w with
    | (Ok a, w') => k a w'
    | (Throw e, w') => (Throw e, w')
    | (Stalled, w') => (Stalled, w')
    end.

Definition throw {A} (e : Error) : M A := fun w => (Throw e, w).

Definition gets {A} (f : World -> A) : M A := fun w => (Ok (f w), w).

Definition modify (f : World -> World) : M unit := fun w => (Ok tt, f w).

Declare Scope js_scope.
Delimit Scope js_scope with js.
Notation "x <- m ;; k" := (bind m (fun x => k))
  (at level 100, m at next level, right associativity) : js_scope.
Notation "m ;; k" := (bind m (fun _ => k))
  (at level 100, right associativity) : js_scope.
Open Scope js_scope.

(** [array.forEach(f)]: the first throw ends the loop. *)
Fixpoint forEach {A} (l : list A) (f : A -> M unit) : M unit :=
  match l with
  | [] => ret tt
  | x :: l' => f x ;; forEach l' f
  end.

(** [await p] for a promise known by how it ends. *)
Definition await (s : Settlement) : M unit :=
  match s with
  | Fulfils => ret tt
  | Rejects r => throw (Rejection r)
  | NeverSettles => fun w => (Stalled, w)
  end.

Definition log (e : Event) : M unit :=
  modify (fun w => with_trace (trace w ++ [e]) w).

(** A fresh object identity. *)
Definition fresh : M nat :=
  fun w => (Ok (next_ref w), with_next_ref (S (next_ref w)) w).

(** ** Collaborators

    Code the class calls but does not contain: the configuration
    defaults and merge of [./defaults/config] and [./utils/merge-configs],
    and the plugins' asynchronous work, given by how the promise each
    returns ends. *)
Class Collaborators := {
  DefaultConfig : PollyConfig;
  mergeConfigs : PollyConfig -> PollyConfig -> PollyConfig -> PollyConfig;
  persist : Instance -> Settlement;
  listener_work : Listener -> Settlement
}.

(** ** Imports of the module that are not part of this file *)

(** Modelled from the spec: [MODES] of [@pollyjs/utils], the enumeration
    RECORD, REPLAY, PASSTHROUGH, STOPPED, stored case-normalized. *)
Module MODES.
Definition RECORD : string := "RECORD".
Definition REPLAY : string := "REPLAY".
Definition PASSTHROUGH : string := "PASSTHROUGH".
Definition STOPPED : string := "STOPPED".
(** [Object.values(MODES)] *)
Definition values : list string := [RECORD; REPLAY; PASSTHROUGH; STOPPED].
End MODES.

(** Modelled from the spec: [assert] of [@pollyjs/utils], which fails with
    a validation error carrying the message when the condition is false. *)
Definition assert (msg : string) (condition : bool) : M unit :=
  if condition then ret tt else throw (PollyError msg).

(** Modelled from the spec: the [Container] of [./-private/container], a
    registry from ["<capability>:<name>"] to a factory; [register] adds a
    factory under its derived name, [has] and [lookup] query by the same
    key, and [lookup] fails with a lookup error if the key is absent. *)
Module Container.
Definition key_of (F : Factory) : string := fac_type F ++ ":" ++ fac_name F.

Definition register (F : Factory) : M unit :=
  modify (fun w => with_container (<[key_of F := F]> (container w)) w).

Definition has (key : string) : M bool :=
  gets (fun w => bool_decide (is_Some (container w !! key))).

Definition lookup (key : string) : M Factory :=
  c <- gets container ;;
  match c !! key with
  | Some F => ret F
  | None => throw (LookupError key)
  end.
End Container.

(** Modelled from the spec: the [EventEmitter] of
    [./-private/event-emitter], a publish/subscribe bus; [on] attaches one
    more subscription of the listener to the event, [off] removes the
    listener from the event, [emitSync] calls the listeners in order and
    [emit] also awaits the work each one returns. *)
Module EventEmitter.
Definition listeners (eventName : string) (w : World) : list Listener :=
  default [] (EVENT_EMITTER w !! eventName).

Definition on (eventName : string) (listener : Listener) : M unit :=
  modify (fun w =>
    with_emitter (<[eventName := (listeners eventName w ++ [listener])%list]>
                    (EVENT_EMITTER w)) w).

Definition off (eventName : string) (listener : Listener) : M unit :=
  modify (fun w =>
    with_emitter
      (<[eventName := filter (fun l => l <> listener) (listeners eventName w)]>
         (EVENT_EMITTER w)) w).

(** Calling one listener: an installation callback registers its
    factory in the container it is given (the instance's); a user
    listener is logged. *)
Definition call (eventName : string) (l : Listener) : M unit :=
  match l with
  | InstallFactory _ F => Container.register F
  | ExternalListener _ => log (ListenerCalled eventName l)
  end.

Definition emitSync (eventName : string) : M unit :=
  ls <- gets (listeners eventName) ;;
  forEach ls (call eventName).

Definition emit `{Collaborators} (eventName : string) : M unit :=
  ls <- gets (listeners eventName) ;;
  forEach ls (fun l => call eventName l ;; await (listener_work l)).
End EventEmitter.

(** ** The adapters [Map]

    A JavaScript [Map] keeps its entries in insertion order; [set] on a
    present key replaces the value in place. *)
Module JsMap.
Definition get {V} (k : string) (m : list (string * V)) : option V :=
  snd <$> List.find (fun e => bool_decide (e.1 = k)) m.

Definition has {V} (k : string) (m : list (string * V)) : bool :=
  bool_decide (is_Some (get k m)).

Definition delete {V} (k : string) (m : list (string * V)) : list (string * V) :=
  filter (fun e => e.1 <> k) m.

Definition set {V} (k : string) (v : V) (m : list (string * V)) : list (string * V) :=
  if has k m
  then (fun e => if bool_decide (e.1 = k) then (k, v) else e) <$> m
  else (m ++ [(k, v)])%list.

Definition keys {V} (m : list (string * V)) : list string := m.*1.
End JsMap.

(** ** The class *)

Definition dquote : string := String "034"%char EmptyString.

Module Polly.
Section Polly.
Context `{Collaborators}.

(** [get mode()], line 108 *)
Definition mode (w : World) : option string := cfg_mode (config w).

(** The identifier [uppercaseMode] of lines 116, 119 and 122.  The
    setter declares the parameter [mode] and the constant
    [possibleModes]; the module declares its imports, [RECORDING_NAME],
    [RECORDING_ID], [PAUSED_MODE], [FACTORY_REGISTRATION],
    [EVENT_EMITTER] and [Polly].  None is [uppercaseMode], so reading it
    throws. *)
Definition uppercaseMode : M string := throw (ReferenceError "uppercaseMode").

(** [set mode(mode)], lines 112-123.  The arguments of [assert] are
    evaluated before the call; the first one reads [uppercaseMode]. *)
Definition set_mode (mode : string) : M unit :=
  let possibleModes := MODES.values in
  u <- uppercaseMode ;;
  assert ("Invalid mode provided: " ++ dquote ++ u ++ dquote
            ++ ". Possible modes: " ++ String.concat ", " possibleModes ++ ".")
         (bool_decide (u ∈ possibleModes)) ;;
  modify (fun w =>
    with_config {| cfg_mode := Some u;
                   cfg_adapters := cfg_adapters (config w);
                   cfg_persister := cfg_persister (config w) |} w).

(** [static on], [static off], lines 125-141 *)
Definition on (eventName : string) (listener : Listener) : M unit :=
  EventEmitter.on eventName listener.

Definition off (eventName : string) (listener : Listener) : M unit :=
  EventEmitter.off eventName listener.

(** The [WeakMap] operations on [FACTORY_REGISTRATION], keyed by the
    identity of the factory. *)
Definition registration (F : Factory) (w : World) : option Listener :=
  snd <$> List.find (fun e => bool_decide (e.1 = F)) (FACTORY_REGISTRATION w).

(** [static register(Factory)], lines 143-153 *)
Definition register (Factory : Factory) : M unit :=
  known <- gets (registration Factory) ;;
  (if known is None then
     ref <- fresh ;;
     modify (fun w =>
       with_registration
         (FACTORY_REGISTRATION w ++ [(Factory, InstallFactory ref Factory)]) w)
   else ret tt) ;;
  cb <- gets (registration Factory) ;;
  match cb with
  | Some l => on "register" l
  | None => throw (TypeError "listener is undefined")
  end.

(** [static unregister(Factory)], lines 155-161 *)
Definition unregister (Factory : Factory) : M unit :=
  known <- gets (registration Factory) ;;
  match known with
  | Some l => off "register" l
  | None => ret tt
  end.

(** [new Factory(this)] *)
Definition new (F : Factory) : M Instance :=
  ref <- fresh ;;
  ret {| inst_ref := ref; inst_of := F |}.

(** [disconnectFrom(nameOrFactory)], lines 299-311 *)
Definition disconnectFrom (nameOrFactory : NameOrFactory) : M unit :=
  let adapterName :=
    match nameOrFactory with
    | ByFactory F => fac_name F
    | ByName n => n
    end in
  a <- gets (fun w => JsMap.get adapterName (adapters w)) ;;
  match a with
  | Some adapter =>
      log (AdapterDisconnect adapterName adapter) ;;
      modify (fun w => with_adapters (JsMap.delete adapterName (adapters w)) w)
  | None => ret tt
  end.

(** [connectTo(nameOrFactory)], lines 272-292 *)
Definition connectTo (nameOrFactory : NameOrFactory) : M unit :=
  adapterName <-
    match nameOrFactory with
    | ByFactory F => Container.register F ;; ret (fac_name F)
    | ByName n => ret n
    end ;;
  registered <- Container.has ("adapter:" ++ adapterName) ;;
  assert ("Adapter matching the name `" ++ adapterName ++ "` was not registered.")
         registered ;;
  disconnectFrom (ByName adapterName) ;;
  F <- Container.lookup ("adapter:" ++ adapterName) ;;
  adapter <- new F ;;
  log (AdapterConnect adapterName adapter) ;;
  modify (fun w => with_adapters (JsMap.set adapterName adapter (adapters w)) w).

(** [disconnect()], lines 317-321.  The loop walks the live key
    iterator of the map; each turn deletes only the key it visits, so
    it visits the keys present at its start, in insertion order. *)
Definition disconnect : M unit :=
  names <- gets (fun w => JsMap.keys (adapters w)) ;;
  forEach names (fun adapterName => disconnectFrom (ByName adapterName)).

(** The block of lines 188-203 of [configure], under [Handle Persister]. *)
Definition handle_persister : M unit :=
  persister <- gets (fun w => cfg_persister (config w)) ;;
  if truthy_ref persister then
    name <-
      match persister with
      | Some (ByFactory F) => Container.register F ;; ret (fac_name F)
      | Some (ByName n) => ret n
      | None => ret ""
      end ;;
    registered <- Container.has ("persister:" ++ name) ;;
    assert ("Persister matching the name `" ++ name ++ "` was not registered.")
           registered ;;
    F <- Container.lookup ("persister:" ++ name) ;;
    p <- new F ;;
    modify (with_persister (Some p))
  else ret tt.

(** [configure(config)], lines 168-204 *)
Definition configure (config' : PollyConfig) : M unit :=
  n <- gets (fun w => length (_requests w)) ;;
  assert "Cannot call `configure` once requests have been handled."
         (bool_decide (n = 0)) ;;
  m <- gets mode ;;
  assert "Cannot call `configure` on an instance of Polly that is not running."
         (bool_decide (m <> Some MODES.STOPPED)) ;;
  disconnect ;;
  modify (fun w => with_config (mergeConfigs DefaultConfig (config w) config') w) ;;
  l <- gets (fun w => cfg_adapters (config w)) ;;
  match l with
  | Some l => forEach l connectTo
  | None => throw (TypeError "Cannot read properties of undefined (reading 'forEach')")
  end ;;
  handle_persister.

(** [record()], [replay()], lines 210-220 *)
Definition record : M unit := set_mode MODES.RECORD.
Definition replay : M unit := set_mode MODES.REPLAY.

(** [pause()], lines 226-229 *)
Definition pause : M unit :=
  modify (fun w => with_paused (mode w) w) ;;
  set_mode MODES.PASSTHROUGH.

(** [play()], lines 235-240 *)
Definition play : M unit :=
  paused <- gets PAUSED_MODE ;;
  match paused with
  | Some m =>
      if truthy_string m then
        set_mode m ;;
        modify (with_paused None)
      else ret tt
  | None => ret tt
  end.

(** [async stop()], lines 246-255 *)
Definition stop : M unit :=
  m <- gets mode ;;
  if bool_decide (m <> Some MODES.STOPPED) then
    disconnect ;;
    log LoggerDisconnect ;;
    p <- gets persister ;;
    match p with
    | Some p => log (Persist p) ;; await (persist p)
    | None => ret tt
    end ;;
    set_mode MODES.STOPPED ;;
    EventEmitter.emit "stop"
  else ret tt.

(** [registerRequest(request)], lines 329-335.  Modelled from the spec:
    the [PollyRequest] of [./-private/request], a tracked request
    created with its own completion signal. *)
Definition registerRequest : M PollyRequest :=
  r <- fresh ;;
  p <- fresh ;;
  let pollyRequest := {| req_ref := r; req_promise := p |} in
  modify (fun w => with_requests (_requests w ++ [pollyRequest]) w) ;;
  ret pollyRequest.

(** The constructor, lines 48-71, but for the recording name; [config0]
    is the argument, or [default_argument] when the caller gives none. *)
Definition default_argument : PollyConfig :=
  {| cfg_mode := Some "REPLAY"; cfg_adapters := None; cfg_persister := None |}.

Definition constructor (config0 : PollyConfig) : M unit :=
  modify (with_config config0) ;;
  modify (with_paused None) ;;
  modify (with_container ∅) ;;
  EventEmitter.emitSync "register" ;;
  modify (with_adapters []) ;;
  modify (with_persister None) ;;
  modify (with_requests []) ;;
  log LoggerConnect ;;
  EventEmitter.emitSync "create" ;;
  configure config0.

(** *** Promises of tracked requests *)

Definition promise_state (w : World) (p : nat) : PState :=
  match settled w !! p with
  | None => Pending
  | Some true => Fulfilled
  | Some false => Rejected
  end.

(** [promise.then(NOOP, NOOP)]: fulfilled once [promise] has settled,
    whichever way. *)
Definition then_NOOP (s : PState) : PState :=
  match s with
  | Pending => Pending
  | Fulfilled | Rejected => Fulfilled
  end.

(** [Promise.all(promises)] *)
Definition Promise_all (l : list PState) : PState :=
  if bool_decide (Rejected ∈ l) then Rejected
  else if bool_decide (Forall (fun s => s = Fulfilled) l) then Fulfilled
  else Pending.

(** [async flush()], lines 257-265.  The call maps over [this._requests]
    synchronously, before its first suspension: what it awaits is fixed
    by the requests tracked at the call. *)
Record Flush := { awaited : list nat }.

Definition flush : M Flush :=
  reqs <- gets _requests ;;
  ret {| awaited := req_promise <$> reqs |}.

(** The state, in a later world, of the promise a [flush()] returned:
    that of the [Promise.all] it awaits. *)
Definition flush_state (f : Flush) (w : World) : PState :=
  Promise_all ((fun p => then_NOOP (promise_state w p)) <$> awaited f).

(** An adapter settling the promise of a request; a promise settles once. *)
Definition settle (p : nat) (ok : bool) : M unit :=
  modify (fun w =>
    match settled w !! p with
    | Some _ => w
    | None => with_settled (<[p := ok]> (settled w)) w
    end).
End Polly.

(** What goes on while a [flush()] is suspended: adapters register
    requests and settle the promises of requests. *)
Inductive Activity :=
| Registers
| Settles (p : nat) (ok : bool).

Definition act (w : World) (a : Activity) : World :=
  match a with
  | Registers => (registerRequest w).2
  | Settles p ok => (settle p ok w).2
  end.

Definition later (l : list Activity) (w : World) : World := foldl act w l.

(** The public operations that touch the mode. *)
Inductive Operation :=
| Record_
| Replay
| Pause
| Play
| Configure (c : PollyConfig)
| Stop.

Definition run `{Collaborators} (op : Operation) : M unit :=
  match op with
  | Record_ => record
  | Replay => replay
  | Pause => pause
  | Play => play
  | Configure c => configure c
  | Stop => stop
  end.

(** A sequence of calls, each made whatever the previous one ended in. *)
Definition run_all `{Collaborators} (ops : list Operation) (w : World) : World :=
  foldl (fun w op => (run op w).2) w ops.

(** *** The recording name *)

(** The functions of [./utils/validators] and [./utils/guid-for-recording]:
    [validateRecordingName] throws or returns, [guidForRecording] derives
    the identifier of a name. *)
Class Naming := {
  validateRecordingName : string -> option Error;
  guidForRecording : string -> string
}.

(** The fields [this[RECORDING_NAME]] and [this[RECORDING_ID]], undefined
    until first assigned. *)
Record Identity := {
  RECORDING_NAME : option string;
  RECORDING_ID : option string
}.

Definition unnamed : Identity := {| RECORDING_NAME := None; RECORDING_ID := None |}.

(** [set recordingName(name)], lines 92-97 *)
Definition set_recordingName `{Naming} (name : string) (this : Identity)
  : Outcome unit * Identity :=
  match validateRecordingName name with
  | Some e => (Throw e, this)
  | None =>
      (Ok tt, {| RECORDING_NAME := Some name;
                 RECORDING_ID := Some (guidForRecording name) |})
  end.

(** [get recordingName()], [get recordingId()], lines 88-106 *)
Definition recordingName (this : Identity) : option string := RECORDING_NAME this.
Definition recordingId (this : Identity) : option string := RECORDING_ID this.

(** Renaming an instance again and again, whatever each attempt ends in. *)
Definition rename_all `{Naming} (names : list string) (this : Identity) : Identity :=
  foldl (fun this name => (set_recordingName name this).2) this names.

(** [new Polly(recordingName, config)], lines 48-71: the parameter
    property [config] is assigned, then the recording name, then the rest
    of the constructor runs.  The call returns the identity of the new
    instance. *)
Definition new_Polly `{Collaborators} `{Naming} (recordingName : string)
    (config0 : PollyConfig) : M Identity :=
  modify (with_config config0) ;;
  match set_recordingName recordingName unnamed with
  | (Ok _, this) => constructor config0 ;; ret this
  | (Throw e, _) => throw e
  | (Stalled, _) => fun w => (Stalled, w)
  end.

(** Calls of the public surface, on top of those of [Operation]. *)
Inductive Call :=
| ConnectTo (x : NameOrFactory)
| DisconnectFrom (x : NameOrFactory)
| Disconnect
| RegisterRequest
| Run (op : Operation).

Definition call `{Collaborators} (c : Call) (w : World) : World :=
  match c with
  | ConnectTo x => (connectTo x w).2
  | DisconnectFrom x => (disconnectFrom x w).2
  | Disconnect => (disconnect w).2
  | RegisterRequest => (registerRequest w).2
  | Run op => (run op w).2
  end.

Definition call_all `{Collaborators} (cs : list Call) (w : World) : World :=
  foldl (fun w c => call c w) w cs.

(** *** The mode setter and the global object

    An identifier that no scope of the module binds is looked up on the
    global object, and reading it throws only when the global object has
    no such property either.  [set_mode_in global] is the setter of lines
    112-123 where [global] is the value of a global [uppercaseMode], if
    there is one; [set_mode] is the case of none.  The argument [mode] is
    not used by the body. *)
Definition set_mode_in (global : option string) (mode : string) : M unit :=
  let possibleModes := MODES.values in
  u <- match global with
       | Some u => ret u
       | None => uppercaseMode
       end ;;
  assert ("Invalid mode provided: " ++ dquote ++ u ++ dquote
            ++ ". Possible modes: " ++ String.concat ", " possibleModes ++ ".")
         (bool_decide (u ∈ possibleModes)) ;;
  modify (fun w =>
    with_config {| cfg_mode := Some u;
                   cfg_adapters := cfg_adapters (config w);
                   cfg_persister := cfg_persister (config w) |} w).

(** [record()], lines 210-212, in that environment *)
Definition record_in (global : option string) : M unit :=
  set_mode_in global MODES.RECORD.

(** What goes on in the process around the instances: instances are
    constructed and used, factories registered and unregistered. *)
Inductive Process :=
| Construct (c : PollyConfig)
| Use (cs : list Call)
| Register (G : Factory)
| Unregister (G : Factory).

Definition proceed `{Collaborators} (w : World) (a : Process) : World :=
  match a with
  | Construct c => (constructor c w).2
  | Use cs => call_all cs w
  | Register G => (register G w).2
  | Unregister G => (unregister G w).2
  end.

Definition proceed_all `{Collaborators} (acts : list Process) (w : World) : World :=
  foldl proceed w acts.
End Polly.

(** * Properties *)

Import Polly.

(** ** Instances used to evaluate the class *)

(** Modelled from the spec: the layered merge, default, then previous,
    then newly supplied, a later layer winning where it defines the
    property and lists replaced wholesale. *)
Definition layered_merge (d prev c : PollyConfig) : PollyConfig :=
  {| cfg_mode := cfg_mode c ∪ cfg_mode prev ∪ cfg_mode d;
     cfg_adapters := cfg_adapters c ∪ cfg_adapters prev ∪ cfg_adapters d;
     cfg_persister := cfg_persister c ∪ cfg_persister prev ∪ cfg_persister d |}.

Definition defaults : PollyConfig :=
  {| cfg_mode := Some MODES.REPLAY; cfg_adapters := Some []; cfg_persister := None |}.

(** Plugins whose asynchronous work succeeds. *)
Definition reliable : Collaborators :=
  {| DefaultConfig := defaults; mergeConfigs := layered_merge;
     persist := fun _ => Fulfils; listener_work := fun _ => Fulfils |}.

(** The same, but that the newly supplied layer alone decides the
    persister, as when it sets the property to [null]. *)
Definition resetting : Collaborators :=
  {| DefaultConfig := defaults;
     mergeConfigs := fun d prev c =>
       {| cfg_mode := cfg_mode (layered_merge d prev c);
          cfg_adapters := cfg_adapters (layered_merge d prev c);
          cfg_persister := cfg_persister c |};
     persist := fun _ => Fulfils; listener_work := fun _ => Fulfils |}.

(** Plugins whose persister rejects. *)
Definition failing : Collaborators :=
  {| DefaultConfig := defaults; mergeConfigs := layered_merge;
     persist := fun _ => Rejects "EIO"; listener_work := fun _ => Fulfils |}.

Definition fetch : Factory := {| fac_ref := 0; fac_type := "adapter"; fac_name := "fetch" |}.
Definition fs : Factory := {| fac_ref := 1; fac_type := "persister"; fac_name := "fs" |}.

(** A process in which nothing was registered and no instance built. *)
Definition boot : World :=
  {| FACTORY_REGISTRATION := []; EVENT_EMITTER := ∅; next_ref := 2;
     trace := []; settled := ∅;
     config := {| cfg_mode := None; cfg_adapters := None; cfg_persister := None |};
     PAUSED_MODE := None; container := ∅; adapters := [];
     persister := None; _requests := [] |}.

(** An instance in mode REPLAY with the [fetch] adapter connected and an
    [fs] persister. *)
Definition running : World :=
  {| FACTORY_REGISTRATION := []; EVENT_EMITTER := ∅; next_ref := 4;
     trace := [LoggerConnect;
               AdapterConnect "fetch" {| inst_ref := 2; inst_of := fetch |}];
     settled := ∅;
     config := {| cfg_mode := Some "REPLAY";
                  cfg_adapters := Some [ByFactory fetch];
                  cfg_persister := Some (ByFactory fs) |};
     PAUSED_MODE := None;
     container := <["persister:fs" := fs]> (<["adapter:fetch" := fetch]> ∅);
     adapters := [("fetch", {| inst_ref := 2; inst_of := fetch |})];
     persister := Some {| inst_ref := 3; inst_of := fs |};
     _requests := [] |}.

(** The same instance after [configure({mode: 'STOPPED'})]. *)
Definition stopped : World :=
  (@configure reliable
     {| cfg_mode := Some "STOPPED"; cfg_adapters := None; cfg_persister := None |}
     running).2.

(** ** Vocabulary of the statements *)

(** The two messages of the preconditions of [configure]. *)
Definition requests_handled : string :=
  "Cannot call `configure` once requests have been handled.".
Definition not_running : string :=
  "Cannot call `configure` on an instance of Polly that is not running.".

(** The adapters map is a map, and holds objects that exist. *)
Definition well_formed (w : World) : Prop :=
  NoDup (JsMap.keys (adapters w))
  /\ Forall (fun e => inst_ref e.2 < next_ref w) (adapters w).

(** The adapters whose connect hook has run and whose disconnect hook has
    not, after the calls [evs], given those active before. *)
Fixpoint active (evs : list Event) (act : list (string * Instance))
  : list (string * Instance) :=
  match evs with
  | [] => act
  | AdapterConnect n i :: evs' => active evs' (act ++ [(n, i)])
  | AdapterDisconnect n i :: evs' =>
      active evs' (filter (fun e => e <> (n, i)) act)
  | _ :: evs' => active evs' act
  end.

(** The adapter instances active under one name. *)
Definition under (name : string) (act : list (string * Instance)) : list Instance :=
  (filter (fun e => e.1 = name) act).*2.

(** How often a call occurs in a log. *)
Definition calls (e : Event) (evs : list Event) : nat :=
  length (filter (fun e' => e' = e) evs).

(** How many subscriptions of a listener an event has. *)
Definition subscriptions (eventName : string) (l : Listener) (w : World) : nat :=
  length (filter (fun l' => l' = l) (EventEmitter.listeners eventName w)).

(** What the adapter manager leaves alone: everything but the adapters
    map, the container, the log and the object identities. *)
Definition keeps (w w' : World) : Prop :=
  config w' = config w /\ PAUSED_MODE w' = PAUSED_MODE w
  /\ persister w' = persister w /\ _requests w' = _requests w
  /\ FACTORY_REGISTRATION w' = FACTORY_REGISTRATION w
  /\ EVENT_EMITTER w' = EVENT_EMITTER w /\ settled w' = settled w.

(** A body that relates the world it ends in to the one it starts in by
    [R], throws only errors in [E], and does not stall. *)
Definition satisfies {A} (E : Error -> Prop) (R : World -> World -> Prop)
    (m : M A) : Prop :=
  forall w, R w (m w).2
    /\ match (m w).1 with
       | Ok _ => True
       | Throw e => E e
       | Stalled => False
       end.

(** No constraint between two worlds. *)
Definition anything (w w' : World) : Prop := True.

(** A call of the disconnect hook of an adapter. *)
Definition is_disconnect (e : Event) : Prop :=
  match e with AdapterDisconnect _ _ => True | _ => False end.

(** The log grew by disconnect hooks only. *)
Definition disconnects_only (w w' : World) : Prop :=
  exists evs, trace w' = (trace w ++ evs)%list /\ Forall is_disconnect evs.

(** The errors of the adapter manager and of the persister block. *)
Definition adapter_error (e : Error) : Prop :=
  (exists n, e = PollyError ("Adapter matching the name `" ++ n ++ "` was not registered."))
  \/ (exists k, e = LookupError k).

Definition persister_error (e : Error) : Prop :=
  (exists n, e = PollyError ("Persister matching the name `" ++ n ++ "` was not registered."))
  \/ (exists k, e = LookupError k).

(** Anything but the failure of a precondition of [configure]. *)
Definition past_preconditions (e : Error) : Prop :=
  e <> PollyError requests_handled /\ e <> PollyError not_running.

Definition no_error (e : Error) : Prop := False.

Definition any_error (e : Error) : Prop := True.

(** The log grew, by calls of one kind only. *)
Definition logs_only (P : Event -> Prop) (w w' : World) : Prop :=
  exists evs, trace w' = (trace w ++ evs)%list /\ Forall P evs.

(** The container has not lost the key [k]. *)
Definition grows (k : string) (w w' : World) : Prop :=
  is_Some (container w !! k) -> is_Some (container w' !! k).

(** A call of a listener of one event. *)
Definition is_listener_of (eventName : string) (e : Event) : Prop :=
  match e with
  | ListenerCalled eventName' _ => eventName' = eventName
  | _ => False
  end.

(** A call of a hook of an adapter. *)
Definition is_adapter_hook (e : Event) : Prop :=
  match e with
  | AdapterConnect _ _ | AdapterDisconnect _ _ => True
  | _ => False
  end.

(** The name an adapter is stored under: [nameOrFactory.name] for a
    factory, the string itself otherwise. *)
Definition name_of (x : NameOrFactory) : string :=
  match x with
  | ByName n => n
  | ByFactory F => fac_name F
  end.

(** The disconnect hooks of the stored adapters, in insertion order. *)
Definition disconnect_calls (m : list (string * Instance)) : list Event :=
  (fun e => AdapterDisconnect e.1 e.2) <$> m.

(** The adapters map holds one instance per name, and exactly those whose
    connect hook was called and whose disconnect hook was not since. *)
Definition consistent (w : World) : Prop :=
  NoDup (JsMap.keys (adapters w)) /\ active (trace w) [] = adapters w.

(** What [Polly.register] memoizes for a factory, if anything, is an
    installation callback of that factory. *)
Definition memoized_for (F : Factory) (w : World) : Prop :=
  registration F w = None \/ exists r, registration F w = Some (InstallFactory r F).

(** A name validator that rejects the empty string, and a derived
    identifier. *)
Definition naming : Naming :=
  {| validateRecordingName := fun name =>
       if bool_decide (name = "") then Some (PollyError "Invalid recording name") else None;
     guidForRecording := fun name => name ++ "_1" |}.

(** The operations that test the mode before they do anything. *)
Definition guarded (op : Operation) : Prop :=
  match op with
  | Configure _ | Stop => True
  | _ => False
  end.

(** The calls [stop()] makes up to its [await]: the disconnect hooks of
    the stored adapters, the logger's disconnect, the [persist] of the
    persister if there is one. *)
Definition shutdown_calls (w : World) : list Event :=
  (disconnect_calls (adapters w)
   ++ LoggerDisconnect :: match persister w with
                          | Some p => [Persist p]
                          | None => []
                          end)%list.

(** Every memoized callback is an installation callback of its factory. *)
Definition memo_ok (w : World) : Prop := forall G, memoized_for G w.

(** [running] is what the constructor builds. *)
Example running_is_constructed :
  @constructor reliable
     {| cfg_mode := None; cfg_adapters := Some [ByFactory fetch];
        cfg_persister := Some (ByFactory fs) |} boot
  = (Ok tt, running).
Proof. vm_compute. reflexivity. Qed.

(** ** Reasoning about bodies *)

Section Logic.
Variable E : Error -> Prop.
Variable R : World -> World -> Prop.
Hypothesis R_refl : forall w, R w w.
Hypothesis R_trans : forall w1 w2 w3, R w1 w2 -> R w2 w3 -> R w1 w3.

Lemma satisfies_ret {A} (a : A) : satisfies E R (ret a).
Proof. intros w. simpl. auto. Qed.

Lemma satisfies_gets {A} (f : World -> A) : satisfies E R (gets f).
Proof. intros w. simpl. auto. Qed.

Lemma satisfies_throw {A} (e : Error) : E e -> satisfies E R (@throw A e).
Proof. intros He w. simpl. auto. Qed.

Lemma satisfies_modify (f : World -> World) :
  (forall w, R w (f w)) -> satisfies E R (modify f).
Proof. intros Hf w. simpl. auto. Qed.

Lemma satisfies_bind {A B} (m : M A) (k : A -> M B) :
  satisfies E R m -> (forall a, satisfies E R (k a)) -> satisfies E R (bind m k).
Proof.
  intros Hm Hk w. unfold bind.
  destruct (Hm w) as [Hr Ho]. destruct (m w) as [[a|e|] w1]; simpl in *; auto.
  destruct (Hk a w1) as [Hr' Ho']. split; [eauto | done].
Qed.

Lemma satisfies_forEach {A} (l : list A) (f : A -> M unit) :
  (forall x, satisfies E R (f x)) -> satisfies E R (forEach l f).
Proof.
  intros Hf. induction l as [|x l IH]; simpl.
  - apply satisfies_ret.
  - apply satisfies_bind; auto.
Qed.

Lemma satisfies_assert (msg : string) (c : bool) :
  (c = false -> E (PollyError msg)) -> satisfies E R (assert msg c).
Proof.
  intros Hc. unfold assert. destruct c.
  - apply satisfies_ret.
  - apply satisfies_throw. auto.
Qed.
End Logic.

Lemma satisfies_weaken {A} (E E' : Error -> Prop) (R R' : World -> World -> Prop)
    (m : M A) :
  (forall e, E e -> E' e) -> (forall w w', R w w' -> R' w w') ->
  satisfies E R m -> satisfies E' R' m.
Proof.
  intros HE HR Hm w. destruct (Hm w) as [Hr Ho]. split; [auto|].
  destruct (m w).1; auto.
Qed.

Lemma satisfies_ok {A} R (m : M A) (w : World) :
  satisfies no_error R m -> exists a, m w = (Ok a, (m w).2) /\ R w (m w).2.
Proof.
  intros Hm. destruct (Hm w) as [Hr Ho].
  destruct (m w) as [[a|e|] w1]; simpl in *; try done. eauto.
Qed.

Lemma keeps_refl w : keeps w w.
Proof. by repeat split. Qed.

Lemma keeps_trans w1 w2 w3 : keeps w1 w2 -> keeps w2 w3 -> keeps w1 w3.
Proof. unfold keeps. intros H1 H2. destruct_and!. repeat split; congruence. Qed.

Create HintDb polly.
#[local] Hint Resolve keeps_refl keeps_trans : polly.

Ltac side := solve [eauto with polly].

Ltac body :=
  repeat first
    [ solve [auto with polly]
    | apply satisfies_ret; side
    | apply satisfies_gets; side
    | apply satisfies_modify; intros ?; solve [by repeat split]
    | apply satisfies_bind; [side | | intros ?]
    | apply satisfies_forEach; [side | side | intros ?] ].

(** ** The adapter manager leaves the rest of the instance alone *)

Lemma log_keeps E (e : Event) : satisfies E keeps (log e).
Proof. unfold log. body. Qed.

Lemma disconnectFrom_keeps E (x : NameOrFactory) :
  satisfies E keeps (disconnectFrom x).
Proof. unfold disconnectFrom. body. destruct a; body. Qed.

#[local] Hint Resolve log_keeps disconnectFrom_keeps : polly.

Lemma disconnect_keeps E : satisfies E keeps disconnect.
Proof. unfold disconnect. body. Qed.

Lemma register_keeps E (F : Factory) : satisfies E keeps (Container.register F).
Proof. unfold Container.register. body. Qed.

Lemma has_keeps E (key : string) : satisfies E keeps (Container.has key).
Proof. unfold Container.has. body. Qed.

Lemma new_keeps E (F : Factory) : satisfies E keeps (new F).
Proof.
  unfold new, fresh. apply satisfies_bind; [side| |intros r; body].
  intros w. simpl. split; [by repeat split | done].
Qed.

#[local] Hint Resolve disconnect_keeps register_keeps has_keeps new_keeps : polly.

Lemma connectTo_keeps (x : NameOrFactory) :
  satisfies adapter_error keeps (connectTo x).
Proof.
  unfold connectTo. body.
  - destruct x; body.
  - apply satisfies_assert; [side|]. intros _. left. eauto.
  - unfold Container.lookup. body. destruct (_ !! _); body.
    apply satisfies_throw; [side|]. right. eauto.
Qed.

#[local] Hint Resolve connectTo_keeps : polly.

(** ** The mode setter *)

Lemma set_mode_throws (mode : string) (w : World) :
  set_mode mode w = (Throw (ReferenceError "uppercaseMode"), w).
Proof. reflexivity. Qed.

(** C2. The mode setter never gets to normalise its argument: for every
    string it throws the reference error of [uppercaseMode] and leaves
    the mode as it was, for a legal name as for an illegal one; in
    particular it does not set RECORD on [record] or [RECORD], and what
    it throws is not the validation error listing the legal modes. *)
Theorem mode_setter_ignores_its_argument (mode : string) (w : World) :
  set_mode mode w = (Throw (ReferenceError "uppercaseMode"), w)
  /\ Polly.mode (set_mode mode w).2 = Polly.mode w
  /\ (forall msg, (set_mode mode w).1 <> Throw (PollyError msg))
  /\ (set_mode "record" running).1 <> Ok tt
  /\ Polly.mode (set_mode "RECORD" running).2 = Some "REPLAY".
Proof.
  rewrite !set_mode_throws. simpl. repeat split; congruence.
Qed.

(** ** Pause and play *)

Lemma pause_throws (w : World) :
  pause w = (Throw (ReferenceError "uppercaseMode"), with_paused (mode w) w).
Proof. reflexivity. Qed.

Lemma play_unpaused (w : World) :
  truthy_mode (PAUSED_MODE w) = false -> play w = (Ok tt, w).
Proof.
  unfold play, bind, gets, truthy_mode. destruct (PAUSED_MODE w) as [m|]; [|done].
  intros ->. done.
Qed.

Lemma play_throws (w : World) :
  truthy_mode (PAUSED_MODE w) = true ->
  play w = (Throw (ReferenceError "uppercaseMode"), w).
Proof.
  unfold play, bind, gets, truthy_mode. destruct (PAUSED_MODE w) as [m|]; [|done].
  intros ->. done.
Qed.

(** C8. [pause()] saves the current mode in the snapshot and then throws
    in the mode setter: the mode is not PASSTHROUGH afterwards but what it
    was, and a second [pause()] leaves the snapshot holding that same
    mode; on an instance in mode REPLAY, the [play()] that follows throws
    in the setter too and leaves the snapshot in place. *)
Theorem pause_does_not_reach_passthrough (w : World) :
  let w1 := (pause w).2 in
  let w2 := (pause w1).2 in
  (pause w).1 = Throw (ReferenceError "uppercaseMode")
  /\ PAUSED_MODE w1 = mode w /\ mode w1 = mode w
  /\ PAUSED_MODE w2 = mode w /\ mode w2 = mode w
  /\ mode (pause running).2 = Some "REPLAY"
  /\ PAUSED_MODE (pause (pause running).2).2 = Some "REPLAY"
  /\ play (pause running).2
     = (Throw (ReferenceError "uppercaseMode"), (pause running).2)
  /\ PAUSED_MODE (play (pause running).2).2 = Some "REPLAY".
Proof. simpl. by repeat split. Qed.

(** ** Stepping through a body *)

Lemma bind_gets {A B} (f : World -> A) (k : A -> M B) (w : World) :
  bind (gets f) k w = k (f w) w.
Proof. reflexivity. Qed.

Lemma bind_assert_true {B} (msg : string) (k : unit -> M B) (w : World) :
  bind (assert msg true) k w = k tt w.
Proof. reflexivity. Qed.

Lemma bind_assert_false {B} (msg : string) (k : unit -> M B) (w : World) :
  bind (assert msg false) k w = (Throw (PollyError msg), w).
Proof. reflexivity. Qed.

Lemma bind_ok {A B} (m : M A) (k : A -> M B) (w w1 : World) (a : A) :
  m w = (Ok a, w1) -> bind m k w = k a w1.
Proof. unfold bind. by intros ->. Qed.

Lemma disconnect_ok (w : World) :
  disconnect w = (Ok tt, (disconnect w).2) /\ keeps w (disconnect w).2.
Proof.
  destruct (satisfies_ok keeps disconnect w (disconnect_keeps no_error)) as ([] & ? & ?).
  done.
Qed.

(** ** An instance that is STOPPED *)

Lemma configure_requests_handled `{Collaborators} c w :
  _requests w <> [] ->
  configure c w = (Throw (PollyError requests_handled), w).
Proof.
  intros Hr. unfold configure. rewrite bind_gets.
  rewrite bool_decide_false; [done|]. by destruct (_requests w).
Qed.

Lemma configure_not_running `{Collaborators} c w :
  _requests w = [] -> mode w = Some MODES.STOPPED ->
  configure c w = (Throw (PollyError not_running), w).
Proof.
  intros Hr Hm. unfold configure. rewrite bind_gets, Hr. simpl length.
  rewrite bool_decide_true by done. rewrite bind_assert_true, bind_gets, Hm.
  rewrite bool_decide_false; [done|]. by intros [].
Qed.

Lemma stop_stopped `{Collaborators} w :
  mode w = Some MODES.STOPPED -> stop w = (Ok tt, w).
Proof.
  intros Hm. unfold stop. rewrite bind_gets, Hm.
  rewrite bool_decide_false; [done|]. by intros [].
Qed.

Lemma run_guarded `{Collaborators} (op : Operation) (w : World) :
  mode w = Some MODES.STOPPED -> guarded op -> (run op w).2 = w.
Proof.
  intros Hm Hg. destruct op; try done; unfold run.
  - destruct (_requests w) eqn:Hr.
    + by rewrite configure_not_running.
    + rewrite configure_requests_handled; [done|]. by rewrite Hr.
  - by rewrite stop_stopped.
Qed.




(** ** The preconditions of [configure] *)

Lemma adapter_error_past e : adapter_error e -> past_preconditions e.
Proof.
  intros [[n ->]|[k ->]]; split; intros Heq; try discriminate Heq;
    injection Heq as Heq; simpl in Heq; discriminate Heq.
Qed.

Lemma persister_error_past e : persister_error e -> past_preconditions e.
Proof.
  intros [[n ->]|[k ->]]; split; intros Heq; try discriminate Heq;
    injection Heq as Heq; simpl in Heq; discriminate Heq.
Qed.

Lemma handle_persister_errors :
  satisfies persister_error anything handle_persister.
Proof.
  assert (Hr : forall w, anything w w) by done.
  assert (Ht : forall w1 w2 w3, anything w1 w2 -> anything w2 w3 -> anything w1 w3)
    by done.
  unfold handle_persister.
  apply satisfies_bind; [done|by apply satisfies_gets|intros p].
  destruct (truthy_ref p); [|by apply satisfies_ret].
  apply satisfies_bind; [done| |intros name].
  { destruct p as [[n|F]|]; try by apply satisfies_ret.
    apply satisfies_bind; [done| |intros; by apply satisfies_ret].
    by apply satisfies_modify. }
  apply satisfies_bind; [done|by apply satisfies_gets|intros b].
  apply satisfies_bind; [done| |intros _].
  { apply satisfies_assert; [done|]. intros _. left. eauto. }
  apply satisfies_bind; [done| |intros F].
  { unfold Container.lookup.
    apply satisfies_bind; [done|by apply satisfies_gets|intros c].
    destruct (c !! _); [by apply satisfies_ret|].
    apply satisfies_throw; [done|]. right. eauto. }
  apply satisfies_bind; [done| |intros i; by apply satisfies_modify].
  unfold new. apply satisfies_bind; [done| |intros; by apply satisfies_ret].
  intros w. by split.
Qed.

Lemma configure_past_preconditions `{Collaborators} c w e :
  _requests w = [] -> mode w <> Some MODES.STOPPED ->
  (configure c w).1 = Throw e -> past_preconditions e.
Proof.
  intros Hr Hm. unfold configure. rewrite bind_gets, Hr. simpl length.
  rewrite bool_decide_true by done. rewrite bind_assert_true, bind_gets.
  rewrite bool_decide_true by done. rewrite bind_assert_true.
  match goal with |- (?m w).1 = _ -> _ =>
    assert (Hs : satisfies past_preconditions anything m) end.
  { assert (Hrefl : forall w, anything w w) by done.
    assert (Ht : forall w1 w2 w3, anything w1 w2 -> anything w2 w3 -> anything w1 w3)
      by done.
    apply satisfies_bind; [done| |intros _].
    { eapply satisfies_weaken; [| |apply (disconnect_keeps past_preconditions)]; done. }
    apply satisfies_bind; [done|by apply satisfies_modify|intros _].
    apply satisfies_bind; [done|by apply satisfies_gets|intros l].
    apply satisfies_bind; [done| |intros _].
    { destruct l as [l|].
      - apply satisfies_forEach; [done|done|intros x].
        eapply satisfies_weaken; [| |apply connectTo_keeps]; [|done].
        apply adapter_error_past.
      - apply satisfies_throw; [done|]. by split. }
    eapply satisfies_weaken; [| |apply handle_persister_errors]; [|done].
    apply persister_error_past. }
  destruct (Hs w) as [_ Ho]. intros Heq. by rewrite Heq in Ho.
Qed.

(** C4. [configure] fails with the validation error of the precondition
    that does not hold, requests already handled or, failing that, mode
    STOPPED, and then leaves the instance and its collaborators as they
    were; the two errors differ; when both preconditions hold, whatever
    [configure] throws is neither of them. *)
Theorem configure_preconditions `{Collaborators} (c : PollyConfig) (w : World) :
  (_requests w <> [] ->
     configure c w = (Throw (PollyError requests_handled), w))
  /\ (_requests w = [] -> mode w = Some MODES.STOPPED ->
     configure c w = (Throw (PollyError not_running), w))
  /\ requests_handled <> not_running
  /\ (_requests w = [] -> mode w <> Some MODES.STOPPED ->
     forall e, (configure c w).1 = Throw e -> past_preconditions e).
Proof.
  split; [apply configure_requests_handled|].
  split; [apply configure_not_running|].
  split; [done|].
  intros Hr Hm e. by apply configure_past_preconditions.
Qed.

(** After any [registerRequest] the first precondition fails. *)
Lemma configure_after_registerRequest `{Collaborators} (c : PollyConfig) (w : World) :
  let busy := (registerRequest w).2 in
  configure c busy = (Throw (PollyError requests_handled), busy).
Proof.
  simpl. apply configure_requests_handled. simpl.
  by destruct (_requests w).
Qed.

(** An instance that tracks one request. *)
Lemma configure_preconditions_witness :
  let busy := (registerRequest running).2 in
  _requests busy <> []
  /\ @configure reliable defaults busy = (Throw (PollyError requests_handled), busy)
  /\ @configure reliable defaults stopped = (Throw (PollyError not_running), stopped)
  /\ (@configure reliable defaults running).1 = Ok tt.
Proof.
  pose proof (@configure_preconditions reliable defaults (registerRequest running).2)
    as (H1 & _).
  pose proof (@configure_preconditions reliable defaults stopped) as (_ & H2 & _).
  simpl. split; [done|]. split; [by apply H1|]. split; [by apply H2|].
  vm_compute. reflexivity.
Defined.

(** ** The persister slot *)

Lemma handle_persister_absent (w : World) :
  truthy_ref (cfg_persister (config w)) = false ->
  handle_persister w = (Ok tt, w).
Proof. unfold handle_persister. rewrite bind_gets. by intros ->. Qed.

Lemma configure_falsy_persister `{Collaborators} (c : PollyConfig) (w : World) :
  truthy_ref (cfg_persister (mergeConfigs DefaultConfig (config w) c)) = false ->
  persister (configure c w).2 = persister w.
Proof.
  intros Hp. unfold configure. rewrite bind_gets.
  destruct (bool_decide _); [rewrite bind_assert_true|done].
  rewrite bind_gets.
  destruct (bool_decide _); [rewrite bind_assert_true|done].
  destruct (disconnect_ok w) as [Hd Hk]. rewrite (bind_ok _ _ _ _ _ Hd).
  set (w1 := (disconnect w).2) in *.
  destruct Hk as (Hc & _ & Hpers & _).
  unfold bind at 1. simpl. rewrite bind_gets. simpl. rewrite Hc.
  set (merged := mergeConfigs DefaultConfig (config w) c) in *.
  destruct (cfg_adapters merged) as [l|]; [|done].
  unfold bind.
  destruct (satisfies_forEach adapter_error keeps keeps_refl keeps_trans l
              connectTo connectTo_keeps (with_config merged w1))
    as [(Hc3 & _ & Hp3 & _) _].
  destruct (forEach l connectTo (with_config merged w1)) as [[[]|e|] w3];
    simpl in *; try congruence.
  rewrite handle_persister_absent; simpl; [congruence|]. by rewrite Hc3.
Qed.

(** C10. A [configure] call whose merged configuration has no persister
    leaves the persister field of the instance as it was, however the
    call ends; the field holds no instance or one. *)
Theorem configure_without_persister `{Collaborators} (c : PollyConfig) (w : World) :
  cfg_persister (mergeConfigs DefaultConfig (config w) c) = None ->
  persister (configure c w).2 = persister w
  /\ (persister (configure c w).2 = None
      \/ exists p, persister (configure c w).2 = Some p).
Proof.
  intros Hp. split.
  - apply configure_falsy_persister. by rewrite Hp.
  - destruct (persister _); eauto.
Qed.

Lemma configure_without_persister_witness :
  cfg_persister (@mergeConfigs resetting (@DefaultConfig resetting) (config running)
                   {| cfg_mode := Some "RECORD"; cfg_adapters := None;
                      cfg_persister := None |}) = None
  /\ persister running = Some {| inst_ref := 3; inst_of := fs |}
  /\ persister (@configure resetting
                  {| cfg_mode := Some "RECORD"; cfg_adapters := None;
                     cfg_persister := None |} running).2
     = persister running.
Proof.
  split; [reflexivity|]. split; [reflexivity|].
  apply (@configure_without_persister resetting
           {| cfg_mode := Some "RECORD"; cfg_adapters := None;
              cfg_persister := None |} running).
  reflexivity.
Defined.

(** ** Disconnecting every adapter *)

Lemma disconnectFrom_eq (n : string) (w : World) :
  disconnectFrom (ByName n) w
  = match JsMap.get n (adapters w) with
    | Some a =>
        (Ok tt, with_adapters (JsMap.delete n (adapters w))
                  (with_trace (trace w ++ [AdapterDisconnect n a]) w))
    | None => (Ok tt, w)
    end.
Proof.
  unfold disconnectFrom. rewrite bind_gets. by destruct (JsMap.get n (adapters w)).
Qed.

Lemma get_None_delete {V} (n : string) (m : list (string * V)) :
  JsMap.get n m = None -> JsMap.delete n m = m.
Proof.
  unfold JsMap.get, JsMap.delete. induction m as [|[k v] m IH]; [done|].
  simpl. case_bool_decide as Hk; [done|]. intros Hg.
  rewrite filter_cons_True by done. by rewrite IH.
Qed.

Lemma forEach_disconnectFrom_adapters (names : list string) (w : World) :
  adapters (forEach names (fun n => disconnectFrom (ByName n)) w).2
  = filter (fun e => e.1 ∉ names) (adapters w).
Proof.
  revert w. induction names as [|n names IH]; intros w.
  - simpl. induction (adapters w) as [|e l IHl]; [done|].
    rewrite filter_cons_True by set_solver. by rewrite <- IHl at 1.
  - simpl. unfold bind. rewrite disconnectFrom_eq.
    assert (Hf : filter (fun e : string * Instance => e.1 ∉ names)
                   (JsMap.delete n (adapters w))
                 = filter (fun e => e.1 ∉ n :: names) (adapters w)).
    { unfold JsMap.delete. rewrite list_filter_filter.
      apply list_filter_iff. intros e. rewrite not_elem_of_cons. tauto. }
    destruct (JsMap.get n (adapters w)) eqn:Hg.
    + rewrite IH. simpl. exact Hf.
    + rewrite IH. rewrite <- Hf. by rewrite get_None_delete.
Qed.

Lemma disconnect_empties (w : World) : adapters (disconnect w).2 = [].
Proof.
  unfold disconnect. rewrite bind_gets, forEach_disconnectFrom_adapters.
  unfold JsMap.keys. generalize (adapters w). intros l.
  assert (Hall : Forall (fun e : string * Instance => e.1 ∈ l.*1) l).
  { apply Forall_forall. intros e He. by apply list_elem_of_fmap_2. }
  revert Hall. generalize (l.*1). intros ks. induction 1 as [|e l' He _ IHl]; [done|].
  by rewrite filter_cons_False by tauto.
Qed.

Lemma disconnects_only_refl w : disconnects_only w w.
Proof. exists []. by rewrite app_nil_r. Qed.

Lemma disconnects_only_trans w1 w2 w3 :
  disconnects_only w1 w2 -> disconnects_only w2 w3 -> disconnects_only w1 w3.
Proof.
  intros (e1 & H1 & F1) (e2 & H2 & F2). exists (e1 ++ e2)%list.
  split; [by rewrite H2, H1, app_assoc | by apply Forall_app].
Qed.

Lemma disconnect_log (w : World) : disconnects_only w (disconnect w).2.
Proof.
  assert (Hs : satisfies no_error disconnects_only disconnect).
  { unfold disconnect.
    apply satisfies_bind; [apply disconnects_only_trans| |intros names].
    { apply satisfies_gets, disconnects_only_refl. }
    apply satisfies_forEach;
      [apply disconnects_only_refl|apply disconnects_only_trans|intros n].
    intros w0. rewrite disconnectFrom_eq.
    destruct (JsMap.get n (adapters w0)); simpl.
    - split; [|done]. eexists. split; [done|]. by repeat constructor.
    - split; [apply disconnects_only_refl|done]. }
  apply Hs.
Qed.

(** ** Shutdown *)

(** [stop] up to its call of the mode setter: the adapters and the logger
    are disconnected, then [persist] is awaited. *)
Lemma stop_eq `{Collaborators} (w : World) :
  mode w <> Some MODES.STOPPED ->
  let wd := (disconnect w).2 in
  let wl := with_trace (trace wd ++ [LoggerDisconnect]) wd in
  stop w =
    match persister w with
    | Some p =>
        let wp := with_trace (trace wd ++ [LoggerDisconnect; Persist p]) wd in
        match persist p with
        | Fulfils => (Throw (ReferenceError "uppercaseMode"), wp)
        | Rejects r => (Throw (Rejection r), wp)
        | NeverSettles => (Stalled, wp)
        end
    | None => (Throw (ReferenceError "uppercaseMode"), wl)
    end.
Proof.
  intros Hm. unfold stop. rewrite bind_gets. rewrite bool_decide_true by done.
  destruct (disconnect_ok w) as [Hd Hk]. rewrite (bind_ok _ _ _ _ _ Hd).
  destruct Hk as (_ & _ & Hp & _). rewrite <- Hp.
  destruct ((disconnect w).2) as [fr ee nr tr se cf pm ct ad [p|] rq]; simpl.
  - unfold bind, log, modify, gets, await. simpl.
    rewrite <- app_assoc. simpl. by destruct (persist p).
  - reflexivity.
Qed.

(** C1, as stated, fails: the persister of [running] rejects, [stop()]
    rejects with its reason, and the mode is still REPLAY. *)
Lemma stop_persist_failure_keeps_mode :
  persister running = Some {| inst_ref := 3; inst_of := fs |}
  /\ @persist failing {| inst_ref := 3; inst_of := fs |} = Rejects "EIO"
  /\ (@stop failing running).1 = Throw (Rejection "EIO")
  /\ mode (@stop failing running).2 = Some "REPLAY"
  /\ ~ (mode (@stop failing running).2 = Some MODES.STOPPED).
Proof. vm_compute. repeat split; discriminate. Qed.

Lemma stop_keeps_mode `{Collaborators} (w : World) : mode (stop w).2 = mode w.
Proof.
  destruct (decide (mode w = Some MODES.STOPPED)) as [Hm|Hm].
  - by rewrite stop_stopped.
  - rewrite (stop_eq w Hm). destruct (disconnect_ok w) as [_ (Hc & _)].
    unfold mode. rewrite <- Hc.
    destruct (persister w) as [p|]; [destruct (persist p)|]; reflexivity.
Qed.

(** C7. [stop()] never sets the mode: on an instance that is not STOPPED
    it throws in the mode setter once [persist] is fulfilled, so it
    rejects, the stop event is not broadcast, and a second [stop()]
    disconnects the logger and persists again. *)
Theorem stop_never_stops `{Collaborators} (w : World) :
  mode (stop w).2 = mode w
  /\ (@stop reliable running).1 = Throw (ReferenceError "uppercaseMode")
  /\ mode (@stop reliable running).2 = Some "REPLAY"
  /\ trace (@stop reliable running).2
     = [LoggerConnect;
        AdapterConnect "fetch" {| inst_ref := 2; inst_of := fetch |};
        AdapterDisconnect "fetch" {| inst_ref := 2; inst_of := fetch |};
        LoggerDisconnect;
        Persist {| inst_ref := 3; inst_of := fs |}]
  /\ calls LoggerDisconnect
       (trace (@stop reliable (@stop reliable running).2).2) = 2
  /\ calls (Persist {| inst_ref := 3; inst_of := fs |})
       (trace (@stop reliable (@stop reliable running).2).2) = 2.
Proof.
  split; [apply stop_keeps_mode|]. vm_compute. by repeat split.
Qed.

(** ** Reconnecting an adapter *)

Section JsMapFacts.
Context {V : Type}.
Implicit Types (m : list (string * V)) (k : string) (v : V).

Lemma get_delete k m : JsMap.get k (JsMap.delete k m) = None.
Proof.
  unfold JsMap.get, JsMap.delete. induction m as [|[k' v'] m IH]; [done|].
  destruct (decide (k' = k)) as [->|Hne].
  - by rewrite filter_cons_False by (simpl; tauto).
  - rewrite filter_cons_True by done. simpl.
    by rewrite bool_decide_false by done.
Qed.

Lemma get_app_new k v m : JsMap.get k m = None -> JsMap.get k (m ++ [(k, v)]) = Some v.
Proof.
  unfold JsMap.get. induction m as [|[k' v'] m IH]; simpl.
  - by rewrite bool_decide_true.
  - by case_bool_decide.
Qed.

Lemma set_new k v m : JsMap.get k m = None -> JsMap.set k v m = (m ++ [(k, v)])%list.
Proof.
  intros Hg. unfold JsMap.set, JsMap.has. rewrite Hg.
  rewrite bool_decide_false; [done|]. by intros [? ?].
Qed.

Lemma delete_app_new k v m : JsMap.delete k (m ++ [(k, v)]) = JsMap.delete k m.
Proof.
  unfold JsMap.delete. rewrite filter_app.
  rewrite filter_cons_False by (simpl; tauto). by rewrite filter_nil, app_nil_r.
Qed.

Lemma delete_delete k m : JsMap.delete k (JsMap.delete k m) = JsMap.delete k m.
Proof. apply get_None_delete, get_delete. Qed.

Lemma get_None_not_key k m : JsMap.get k m = None -> k ∉ JsMap.keys m.
Proof.
  unfold JsMap.get, JsMap.keys. induction m as [|[k' v'] m IH]; simpl.
  - intros _. apply not_elem_of_nil.
  - case_bool_decide as Hk; [done|]. intros Hg.
    rewrite not_elem_of_cons. split; [congruence|auto].
Qed.

Lemma keys_delete k m : JsMap.keys (JsMap.delete k m) = filter (fun k' => k' <> k) (JsMap.keys m).
Proof.
  unfold JsMap.keys, JsMap.delete. induction m as [|[k' v'] m IH]; [done|].
  rewrite fmap_cons. destruct (decide (k' = k)) as [->|Hne].
  - rewrite !filter_cons_False by (simpl; tauto). done.
  - rewrite !filter_cons_True by done. rewrite fmap_cons. by rewrite IH.
Qed.

Lemma NoDup_keys_reset k v m :
  NoDup (JsMap.keys m) -> NoDup (JsMap.keys (JsMap.delete k m ++ [(k, v)])).
Proof.
  intros Hn.
  assert (JsMap.keys (JsMap.delete k m ++ [(k, v)])
          = (JsMap.keys (JsMap.delete k m) ++ [k])%list) as ->
    by (unfold JsMap.keys; by rewrite fmap_app).
  rewrite keys_delete. apply NoDup_app. split; [|split].
  - by apply NoDup_filter.
  - intros k' Hin. apply list_elem_of_filter in Hin as [Hne _].
    by rewrite list_elem_of_singleton.
  - apply NoDup_singleton.
Qed.
End JsMapFacts.

(** How many adapters are active under a name. *)
Lemma under_app name (a b : list (string * Instance)) :
  under name (a ++ b) = (under name a ++ under name b)%list.
Proof. unfold under. by rewrite filter_app, fmap_app. Qed.

Lemma under_new name i : under name [(name, i)] = [i].
Proof. unfold under. by rewrite filter_cons_True by done. Qed.

Lemma under_absent name (m : list (string * Instance)) :
  JsMap.get name m = None -> under name m = [].
Proof.
  intros Hg. unfold under.
  replace (filter (fun e : string * Instance => e.1 = name) m) with
    (@nil (string * Instance)); [done|].
  symmetry. induction m as [|[k v] m IH]; [done|].
  unfold JsMap.get in Hg. simpl in Hg. case_bool_decide as Hk; [done|].
  rewrite filter_cons_False by done. by apply IH.
Qed.

Lemma under_filter_le name (P : string * Instance -> Prop) `{forall e, Decision (P e)}
    (m : list (string * Instance)) :
  length (under name (filter P m)) <= length (under name m).
Proof.
  unfold under. rewrite !length_fmap.
  induction m as [|e m IH]; [done|].
  destruct (decide (P e)).
  - rewrite (filter_cons_True P) by done.
    destruct (decide (e.1 = name)).
    + rewrite !(filter_cons_True (fun e => e.1 = name)) by done. simpl. lia.
    + by rewrite !(filter_cons_False (fun e => e.1 = name)) by done.
  - rewrite (filter_cons_False P) by done.
    destruct (decide (e.1 = name)).
    + rewrite (filter_cons_True (fun e => e.1 = name)) by done. simpl. lia.
    + by rewrite (filter_cons_False (fun e => e.1 = name)) by done.
Qed.

Lemma under_present name i (m : list (string * Instance)) :
  NoDup (JsMap.keys m) -> JsMap.get name m = Some i ->
  length (under name m) <= 1
  /\ under name (filter (fun e => e <> (name, i)) m) = [].
Proof.
  unfold JsMap.keys, JsMap.get. induction m as [|[k v] m IH]; [done|].
  simpl. intros Hn Hg. apply NoDup_cons in Hn as [Hk Hn].
  case_bool_decide as Hkn.
  - simpl in Hkn. subst k. injection Hg as ->.
    assert (Habs : JsMap.get name m = None).
    { unfold JsMap.get. destruct (List.find _ m) as [[k' v']|] eqn:Hf; [|done].
      apply List.find_some in Hf as [Hin Hb]. apply bool_decide_eq_true in Hb.
      simpl in Hb. subst k'. exfalso. apply Hk.
      apply list_elem_of_fmap. exists (name, v'). split; [done|].
      by apply list_elem_of_In. }
    split.
    + change ((name, i) :: m) with ([(name, i)] ++ m)%list.
      rewrite under_app, under_new, under_absent by done. simpl. lia.
    + rewrite filter_cons_False; [|intros Hne; by apply Hne].
      assert (Hle := under_filter_le name (fun e => e <> (name, i)) m).
      rewrite (under_absent name m Habs) in Hle. simpl in Hle.
      apply length_zero_iff_nil. lia.
  - simpl in Hkn. destruct (IH Hn Hg) as [H1 H2]. split.
    + unfold under in *. by rewrite filter_cons_False by done.
    + rewrite filter_cons_True by congruence.
      unfold under in *. by rewrite filter_cons_False by done.
Qed.

Lemma get_Some_elem {V} (k : string) (v : V) (m : list (string * V)) :
  JsMap.get k m = Some v -> (k, v) ∈ m.
Proof.
  unfold JsMap.get. destruct (List.find _ m) as [[k' v']|] eqn:Hf; [|done].
  simpl. intros [= ->]. apply List.find_some in Hf as [Hin Hb].
  apply bool_decide_eq_true in Hb. simpl in Hb. subst k'. by apply list_elem_of_In.
Qed.

(** From no adapter active under [X]: connect, disconnect, connect. *)
Lemma reconnect_active (X : string) (i1 i2 : Instance) (Z : list (string * Instance))
    (k : nat) :
  under X Z = [] ->
  length (under X (active (take k [AdapterConnect X i1; AdapterDisconnect X i1;
                                   AdapterConnect X i2]) Z)) <= 1.
Proof.
  intros HZ.
  assert (Hoff : under X (filter (fun e => e <> (X, i1)) (Z ++ [(X, i1)])%list) = []).
  { rewrite filter_app. rewrite (filter_cons_False _ (X, i1));
      [|intros Hne; by apply Hne].
    rewrite filter_nil, app_nil_r. apply length_zero_iff_nil.
    assert (Hle := under_filter_le X (fun e => e <> (X, i1)) Z).
    rewrite HZ in Hle. simpl in Hle. lia. }
  destruct k as [|[|[|k]]]; simpl.
  - rewrite HZ. simpl. lia.
  - by rewrite under_app, under_new, HZ.
  - rewrite Hoff. simpl. lia.
  - rewrite take_nil. simpl. by rewrite under_app, under_new, Hoff.
Qed.

Lemma connectTo_eq (X : string) (F : Factory) (w : World) :
  container w !! ("adapter:" ++ X) = Some F ->
  let wd := (disconnectFrom (ByName X) w).2 in
  let i := {| inst_ref := next_ref wd; inst_of := F |} in
  connectTo (ByName X) w
  = (Ok tt,
     with_adapters (JsMap.set X i (adapters wd))
       (with_trace (trace wd ++ [AdapterConnect X i])
          (with_next_ref (S (next_ref wd)) wd))).
Proof.
  intros Hc. unfold connectTo. unfold bind at 1. simpl.
  unfold Container.has. rewrite bind_gets, Hc.
  rewrite bool_decide_true by eauto. rewrite bind_assert_true.
  unfold bind at 1. rewrite disconnectFrom_eq.
  destruct (JsMap.get X (adapters w)) as [i0|] eqn:Hg;
    unfold Container.lookup, new, fresh, log, modify, bind, gets, ret;
    simpl; rewrite Hc; reflexivity.
Qed.

Lemma connectTo_fields (X : string) (F : Factory) (w : World) :
  container w !! ("adapter:" ++ X) = Some F ->
  let i := {| inst_ref := next_ref w; inst_of := F |} in
  let w' := (connectTo (ByName X) w).2 in
  (connectTo (ByName X) w).1 = Ok tt
  /\ adapters w' = (JsMap.delete X (adapters w) ++ [(X, i)])%list
  /\ trace w'
     = (trace w
        ++ match JsMap.get X (adapters w) with
           | Some i0 => [AdapterDisconnect X i0]
           | None => []
           end
        ++ [AdapterConnect X i])%list
  /\ next_ref w' = S (next_ref w)
  /\ container w' = container w.
Proof.
  intros Hc. simpl. rewrite (connectTo_eq X F w Hc). rewrite disconnectFrom_eq.
  destruct (JsMap.get X (adapters w)) as [i0|] eqn:Hg; simpl.
  - rewrite set_new by apply get_delete. rewrite <- app_assoc. done.
  - rewrite set_new by done. by rewrite get_None_delete.
Qed.

(** C5. With an adapter factory registered under [X] and a well-formed
    adapters map, two [connectTo(X)] calls both return; the first stores
    a new instance, the second a newer one, distinct from it, which is
    then the only instance stored under [X]; between the two connect
    hooks the disconnect hook of the first instance is called, once; and
    after any number of the calls made, at most one adapter is active
    under [X]. *)
Theorem connectTo_twice (X : string) (F : Factory) (w : World) :
  container w !! ("adapter:" ++ X) = Some F ->
  well_formed w ->
  let i1 := {| inst_ref := next_ref w; inst_of := F |} in
  let i2 := {| inst_ref := S (next_ref w); inst_of := F |} in
  let w1 := (connectTo (ByName X) w).2 in
  let w2 := (connectTo (ByName X) w1).2 in
  let made :=
    (match JsMap.get X (adapters w) with
     | Some i0 => [AdapterDisconnect X i0]
     | None => []
     end ++ [AdapterConnect X i1; AdapterDisconnect X i1; AdapterConnect X i2])%list in
  (connectTo (ByName X) w).1 = Ok tt
  /\ (connectTo (ByName X) w1).1 = Ok tt
  /\ JsMap.get X (adapters w1) = Some i1
  /\ JsMap.get X (adapters w2) = Some i2
  /\ under X (adapters w2) = [i2]
  /\ i2 <> i1
  /\ trace w2 = (trace w ++ made)%list
  /\ calls (AdapterDisconnect X i1) made = 1
  /\ (forall k, length (under X (active (take k made) (adapters w))) <= 1)
  /\ well_formed w2.
Proof.
  intros Hc [Hnd Hrefs]. simpl.
  destruct (connectTo_fields X F w Hc) as (Ho1 & Ha1 & Ht1 & Hn1 & Hc1).
  set (w1 := (connectTo (ByName X) w).2) in *.
  rewrite <- Hc1 in Hc.
  destruct (connectTo_fields X F w1 Hc) as (Ho2 & Ha2 & Ht2 & Hn2 & Hc2).
  set (w2 := (connectTo (ByName X) w1).2) in *.
  set (i1 := {| inst_ref := next_ref w; inst_of := F |}) in *.
  rewrite Hn1 in Ha2, Ht2.
  set (i2 := {| inst_ref := S (next_ref w); inst_of := F |}) in *.
  assert (Hg1 : JsMap.get X (adapters w1) = Some i1).
  { rewrite Ha1. apply get_app_new, get_delete. }
  rewrite Hg1 in Ht2. rewrite Ha1, delete_app_new, delete_delete in Ha2.
  split; [done|]. split; [done|]. split; [done|].
  split. { rewrite Ha2. apply get_app_new, get_delete. }
  split. { rewrite Ha2, under_app, under_new, under_absent; [done|apply get_delete]. }
  split. { intros Heq. injection Heq. lia. }
  split. { rewrite Ht2, Ht1. by rewrite <- !app_assoc. }
  assert (Hfresh : forall i0, JsMap.get X (adapters w) = Some i0 -> i0 <> i1).
  { intros i0 Hg0 ->. apply get_Some_elem in Hg0.
    rewrite Forall_forall in Hrefs. apply Hrefs in Hg0. simpl in Hg0. lia. }
  split.
  { unfold calls. destruct (JsMap.get X (adapters w)) as [i0|] eqn:Hg0; simpl app.
    - rewrite filter_cons_False by (intros [= Heq]; by apply (Hfresh i0)).
      rewrite filter_cons_False by done. rewrite filter_cons_True by done.
      by rewrite filter_cons_False by done.
    - rewrite filter_cons_False by done. rewrite filter_cons_True by done.
      by rewrite filter_cons_False by done. }
  split.
  { intros k. destruct (JsMap.get X (adapters w)) as [i0|] eqn:Hg0; simpl app.
    - destruct (under_present X i0 (adapters w) Hnd Hg0) as [Hone Hoff].
      destruct k as [|k]; [done|]. simpl. by apply reconnect_active.
    - apply reconnect_active. by apply under_absent. }
  split.
  - rewrite Ha2. by apply NoDup_keys_reset.
  - rewrite Ha2, Hn2, Hn1. apply Forall_app. split.
    + apply Forall_forall. intros e He. apply list_elem_of_filter in He as [_ He].
      rewrite Forall_forall in Hrefs. apply Hrefs in He. lia.
    + apply Forall_singleton. simpl. lia.
Qed.

Lemma connectTo_twice_witness :
  container running !! ("adapter:" ++ "fetch") = Some fetch
  /\ well_formed running
  /\ under "fetch"
       (adapters (connectTo (ByName "fetch")
                    (connectTo (ByName "fetch") running).2).2)
     = [{| inst_ref := 5; inst_of := fetch |}].
Proof.
  assert (Hc : container running !! ("adapter:" ++ "fetch") = Some fetch)
    by reflexivity.
  assert (Hw : well_formed running).
  { split; [apply NoDup_singleton|]. repeat constructor. }
  split; [exact Hc|]. split; [exact Hw|].
  destruct (connectTo_twice "fetch" fetch running Hc Hw)
    as (_ & _ & _ & _ & Hu & _).
  exact Hu.
Defined.

(** ** Flushing *)

Lemma Promise_all_then_NOOP (ps : list PState) :
  Promise_all (then_NOOP <$> ps)
  = if bool_decide (Forall (fun s => s <> Pending) ps) then Fulfilled else Pending.
Proof.
  unfold Promise_all. rewrite bool_decide_false.
  - assert (Hiff : Forall (fun s => s = Fulfilled) (then_NOOP <$> ps)
                   <-> Forall (fun s => s <> Pending) ps).
    { rewrite Forall_fmap. apply Forall_iff. intros []; simpl; split; done. }
    by rewrite (bool_decide_ext _ _ Hiff).
  - rewrite list_elem_of_fmap. intros ([] & Heq & _); discriminate Heq.
Qed.

Lemma flush_eq (w : World) :
  flush w = (Ok {| awaited := req_promise <$> _requests w |}, w).
Proof. reflexivity. Qed.

(** C6. The promise returned by [flush()] is never rejected, whatever
    the promises of the tracked requests end in; at any later moment,
    with requests registered and promises settled in between, it is
    fulfilled exactly when the promise of every request tracked at the
    call has settled, fulfilled or rejected: the requests registered
    since do not count. *)
Theorem flush_awaits_tracked_requests (w : World) (since : list Activity) :
  let f := {| awaited := req_promise <$> _requests w |} in
  let now := later since w in
  flush w = (Ok f, w)
  /\ flush_state f now <> Rejected
  /\ (flush_state f now = Fulfilled
      <-> forall r, r ∈ _requests w -> promise_state now (req_promise r) <> Pending).
Proof.
  simpl. split; [reflexivity|].
  unfold flush_state. simpl awaited.
  set (now := later since w).
  replace ((fun p => then_NOOP (promise_state now p)) <$> (req_promise <$> _requests w))
    with (then_NOOP <$> (promise_state now <$> (req_promise <$> _requests w)))
    by (by rewrite <- list_fmap_compose).
  rewrite Promise_all_then_NOOP.
  split; [by case_bool_decide|].
  case_bool_decide as Hall; rewrite !Forall_fmap, Forall_forall in Hall;
    split; done.
Qed.

(** One request is tracked when [flush()] is called; a second one is
    registered afterwards and stays pending; the first one fails. *)
Example flush_after_failure :
  let w := (registerRequest running).2 in
  let f := {| awaited := [5] |} in
  flush w = (Ok f, w)
  /\ flush_state f (later [Registers] w) = Pending
  /\ flush_state f (later [Registers; Settles 5 false] w) = Fulfilled
  /\ promise_state (later [Registers; Settles 5 false] w) 5 = Rejected
  /\ _requests (later [Registers; Settles 5 false] w)
     = [{| req_ref := 4; req_promise := 5 |}; {| req_ref := 6; req_promise := 7 |}]
  /\ promise_state (later [Registers; Settles 5 false] w) 7 = Pending.
Proof. vm_compute. by repeat split. Qed.

(** ** Static registration *)

Lemma registration_app_new (F : Factory) (l : Listener) (w : World) :
  registration F w = None ->
  registration F (with_registration (FACTORY_REGISTRATION w ++ [(F, l)]) w) = Some l.
Proof.
  unfold registration. simpl. generalize (FACTORY_REGISTRATION w).
  intros regs. induction regs as [|[F' l'] regs IH]; simpl.
  - by rewrite bool_decide_true.
  - by case_bool_decide.
Qed.

Lemma register_known (F : Factory) (cb : Listener) (w : World) :
  registration F w = Some cb ->
  register F w
  = (Ok tt, with_emitter (<["register" := (EventEmitter.listeners "register" w ++ [cb])%list]>
                            (EVENT_EMITTER w)) w).
Proof.
  intros Hr. unfold register. rewrite bind_gets, Hr.
  unfold bind at 1. simpl. by rewrite bind_gets, Hr.
Qed.

Lemma register_new (F : Factory) (w : World) :
  registration F w = None ->
  let cb := InstallFactory (next_ref w) F in
  let w0 := with_registration (FACTORY_REGISTRATION w ++ [(F, cb)])
              (with_next_ref (S (next_ref w)) w) in
  register F w
  = (Ok tt, with_emitter (<["register" := (EventEmitter.listeners "register" w ++ [cb])%list]>
                            (EVENT_EMITTER w)) w0).
Proof.
  intros Hr. simpl. unfold register. rewrite bind_gets, Hr.
  unfold bind at 1. unfold bind at 1. simpl. rewrite bind_gets.
  pose proof (registration_app_new F (InstallFactory (next_ref w) F)
                (with_next_ref (S (next_ref w)) w) Hr) as Hn.
  simpl in Hn. by rewrite Hn.
Qed.

Lemma subscriptions_on (l : Listener) (w : World) (e : gmap string (list Listener)) :
  e = <["register" := (EventEmitter.listeners "register" w ++ [l])%list]> (EVENT_EMITTER w) ->
  subscriptions "register" l (with_emitter e w) = S (subscriptions "register" l w).
Proof.
  intros ->. unfold subscriptions, EventEmitter.listeners at 1. simpl.
  rewrite lookup_insert_eq. simpl. rewrite filter_app, length_app.
  rewrite filter_cons_True by done. simpl. lia.
Qed.

(** A [register] of a factory whose callback is memoized. *)
Lemma register_again (F : Factory) (cb : Listener) (w : World) :
  registration F w = Some cb ->
  (register F w).1 = Ok tt
  /\ FACTORY_REGISTRATION (register F w).2 = FACTORY_REGISTRATION w
  /\ registration F (register F w).2 = Some cb
  /\ subscriptions "register" cb (register F w).2
     = S (subscriptions "register" cb w).
Proof.
  intros Hr. rewrite (register_known F cb w Hr). simpl.
  split; [done|]. split; [done|]. split; [exact Hr|].
  by apply subscriptions_on.
Qed.

(** The first [register] of a factory. *)
Lemma register_first (F : Factory) (w : World) :
  registration F w = None ->
  let cb := InstallFactory (next_ref w) F in
  (register F w).1 = Ok tt
  /\ FACTORY_REGISTRATION (register F w).2 = (FACTORY_REGISTRATION w ++ [(F, cb)])%list
  /\ registration F (register F w).2 = Some cb
  /\ subscriptions "register" cb (register F w).2
     = S (subscriptions "register" cb w).
Proof.
  intros Hr. simpl. rewrite (register_new F w Hr). simpl.
  split; [done|]. split; [done|]. split.
  - exact (registration_app_new F _ (with_next_ref (S (next_ref w)) w) Hr).
  - exact (subscriptions_on _ (with_registration _ (with_next_ref _ w)) _ eq_refl).
Qed.

Lemma unregister_unknown (F : Factory) (w : World) :
  registration F w = None -> unregister F w = (Ok tt, w).
Proof. intros Hr. unfold unregister. by rewrite bind_gets, Hr. Qed.

Lemma unregister_known (F : Factory) (cb : Listener) (w : World) :
  registration F w = Some cb ->
  unregister F w = off "register" cb w
  /\ (unregister F w).1 = Ok tt
  /\ subscriptions "register" cb (unregister F w).2 = 0.
Proof.
  intros Hr. unfold unregister. rewrite bind_gets, Hr.
  split; [done|]. split; [done|].
  unfold subscriptions, EventEmitter.listeners at 1. simpl.
  rewrite lookup_insert_eq. simpl. rewrite list_filter_filter.
  apply length_zero_iff_nil.
  induction (EventEmitter.listeners "register" w) as [|l ls IH]; [done|].
  rewrite filter_cons_False; [done|]. intros [-> Hne]. by apply Hne.
Qed.

(** C9. [Polly.register(F)] builds the installation callback of [F] on
    the first call only and keeps it in [FACTORY_REGISTRATION]; a second
    call finds that same callback, adds no entry, and subscribes it to
    the register event once more, so that it then has two subscriptions
    more than before the first call.  [Polly.unregister(F)] changes
    nothing when no callback is memoized for [F], and otherwise is the
    [off] of that callback, after which it has no subscription. *)
Theorem static_register_unregister (F : Factory) (w : World) :
  let w1 := (register F w).2 in
  let w2 := (register F w1).2 in
  (exists cb,
     (register F w).1 = Ok tt /\ (register F w1).1 = Ok tt
     /\ registration F w1 = Some cb /\ registration F w2 = Some cb
     /\ FACTORY_REGISTRATION w2 = FACTORY_REGISTRATION w1
     /\ FACTORY_REGISTRATION w1
        = match registration F w with
          | Some _ => FACTORY_REGISTRATION w
          | None => (FACTORY_REGISTRATION w ++ [(F, InstallFactory (next_ref w) F)])%list
          end
     /\ subscriptions "register" cb w1 = S (subscriptions "register" cb w)
     /\ subscriptions "register" cb w2 = S (S (subscriptions "register" cb w)))
  /\ match registration F w with
     | None => unregister F w = (Ok tt, w)
     | Some cb =>
         unregister F w = off "register" cb w
         /\ subscriptions "register" cb (unregister F w).2 = 0
     end.
Proof.
  simpl. split.
  - destruct (registration F w) as [cb|] eqn:Hr.
    + destruct (register_again F cb w Hr) as (Ho1 & Hf1 & Hr1 & Hs1).
      destruct (register_again F cb _ Hr1) as (Ho2 & Hf2 & Hr2 & Hs2).
      exists cb. rewrite Hs2, Hs1. by repeat split.
    + destruct (register_first F w Hr) as (Ho1 & Hf1 & Hr1 & Hs1).
      destruct (register_again F _ _ Hr1) as (Ho2 & Hf2 & Hr2 & Hs2).
      eexists. rewrite Hs2, Hs1. by repeat split.
  - destruct (registration F w) as [cb|] eqn:Hr.
    + destruct (unregister_known F cb w Hr) as (? & _ & ?). by split.
    + by apply unregister_unknown.
Qed.

(** Two registrations of [fetch] in a new process, then one
    unregistration; an unregistration of [fs], never registered. *)
Example static_register_twice :
  let cb := InstallFactory 2 fetch in
  let w1 := (register fetch boot).2 in
  let w2 := (register fetch w1).2 in
  FACTORY_REGISTRATION w1 = [(fetch, cb)]
  /\ FACTORY_REGISTRATION w2 = [(fetch, cb)]
  /\ EventEmitter.listeners "register" w2 = [cb; cb]
  /\ EventEmitter.listeners "register" (unregister fetch w2).2 = []
  /\ unregister fs w2 = (Ok tt, w2).
Proof. vm_compute. by repeat split. Qed.

(** * Further properties of the class *)

(** ** The adapter manager *)

Lemma filter_iff_in {A} (P Q : A -> Prop) `{forall x, Decision (P x)}
    `{forall x, Decision (Q x)} (l : list A) :
  (forall x, x ∈ l -> P x <-> Q x) -> filter P l = filter Q l.
Proof.
  induction l as [|x l IH]; intros Hpq; [done|].
  assert (Hl : filter P l = filter Q l).
  { apply IH. intros y Hy. apply Hpq. by right. }
  destruct (decide (P x)) as [Hp|Hp].
  - rewrite (filter_cons_True P) by done.
    rewrite (filter_cons_True Q) by (apply Hpq; [by left|done]). by rewrite Hl.
  - rewrite (filter_cons_False P) by done.
    rewrite (filter_cons_False Q); [done|]. intros Hq. apply Hp, Hpq; [by left|done].
Qed.

Section MoreJsMapFacts.
Context {V : Type}.
Implicit Types (m : list (string * V)) (k : string) (v : V).

Lemma not_key_get_None k m : k ∉ JsMap.keys m -> JsMap.get k m = None.
Proof.
  unfold JsMap.get, JsMap.keys. induction m as [|[k' v'] m IH]; [done|].
  rewrite fmap_cons, not_elem_of_cons. simpl. intros [Hne Hin].
  rewrite bool_decide_false by congruence. by apply IH.
Qed.

Lemma get_delete_ne k k' m : k' <> k -> JsMap.get k' (JsMap.delete k m) = JsMap.get k' m.
Proof.
  intros Hne. unfold JsMap.get, JsMap.delete.
  induction m as [|[k0 v0] m IH]; [done|].
  destruct (decide (k0 = k)) as [->|Hk].
  - rewrite filter_cons_False by (simpl; tauto). simpl.
    by rewrite bool_decide_false by congruence.
  - rewrite filter_cons_True by done. simpl. case_bool_decide; [done|]. apply IH.
Qed.

Lemma get_app_other k k' v m :
  k' <> k -> JsMap.get k' (m ++ [(k, v)]) = JsMap.get k' m.
Proof.
  intros Hne. unfold JsMap.get. induction m as [|[k0 v0] m IH]; simpl.
  - by rewrite bool_decide_false by congruence.
  - by case_bool_decide.
Qed.

Lemma NoDup_keys_delete k m : NoDup (JsMap.keys m) -> NoDup (JsMap.keys (JsMap.delete k m)).
Proof. intros Hn. rewrite keys_delete. by apply NoDup_filter. Qed.

Lemma filter_entry_delete `{EqDecision V} k v m :
  NoDup (JsMap.keys m) -> JsMap.get k m = Some v ->
  filter (fun e => e <> (k, v)) m = JsMap.delete k m.
Proof.
  intros Hn Hg. unfold JsMap.delete. apply filter_iff_in.
  intros [k0 v0] Hin. simpl. split.
  - intros Hne ->. apply Hne. f_equal.
    apply get_Some_elem in Hg.
    assert (Hinj : forall e1 e2 : string * V, e1 ∈ m -> e2 ∈ m -> e1.1 = e2.1 -> e1 = e2).
    { clear -Hn. unfold JsMap.keys in Hn. induction m as [|e m IH]; intros e1 e2.
      - by intros ?%elem_of_nil.
      - rewrite fmap_cons in Hn. apply NoDup_cons in Hn as [Hk Hn].
        rewrite !elem_of_cons. intros [->|H1] [->|H2] Heq; try done.
        + exfalso. apply Hk. rewrite Heq. by apply list_elem_of_fmap_2.
        + exfalso. apply Hk. rewrite <- Heq. by apply list_elem_of_fmap_2.
        + by apply IH. }
    by injection (Hinj _ _ Hin Hg eq_refl).
  - intros Hne [= -> _]. by apply Hne.
Qed.
End MoreJsMapFacts.

Lemma disconnectFrom_by_name (x : NameOrFactory) :
  disconnectFrom x = disconnectFrom (ByName (name_of x)).
Proof. by destruct x. Qed.

Lemma forEach_disconnectFrom_all (m : list (string * Instance)) (w : World) :
  NoDup (JsMap.keys m) -> adapters w = m ->
  forEach (JsMap.keys m) (fun n => disconnectFrom (ByName n)) w
  = (Ok tt, with_adapters [] (with_trace (trace w ++ disconnect_calls m) w)).
Proof.
  revert w. induction m as [|[k v] m IH]; intros w Hn Hw.
  - simpl. destruct w; simpl in *; subst. by rewrite app_nil_r.
  - unfold JsMap.keys in Hn. rewrite fmap_cons in Hn.
    apply NoDup_cons in Hn as [Hk Hn]. simpl in Hk.
    change (JsMap.keys ((k, v) :: m)) with (k :: JsMap.keys m).
    simpl forEach. unfold bind. rewrite disconnectFrom_eq, Hw.
    assert (Hg : JsMap.get k ((k, v) :: m) = Some v).
    { unfold JsMap.get. simpl. by rewrite bool_decide_true. }
    rewrite Hg.
    assert (Hd : JsMap.delete k ((k, v) :: m) = m).
    { unfold JsMap.delete. rewrite filter_cons_False by (simpl; tauto).
      apply get_None_delete. by apply not_key_get_None. }
    rewrite Hd. rewrite IH; [|done|done].
    destruct w; simpl. by rewrite <- app_assoc.
Qed.

Lemma disconnect_all (w : World) :
  NoDup (JsMap.keys (adapters w)) ->
  disconnect w
  = (Ok tt, with_adapters [] (with_trace (trace w ++ disconnect_calls (adapters w)) w)).
Proof.
  intros Hn. unfold disconnect. rewrite bind_gets.
  by apply forEach_disconnectFrom_all.
Qed.

(** X1. [disconnect()] on a map with one entry per name returns, having
    called the disconnect hook of every stored adapter exactly once, in
    insertion order, and nothing else; the map is then empty and the rest
    of the instance as it was. *)
Theorem disconnect_calls_every_hook (w : World) :
  NoDup (JsMap.keys (adapters w)) ->
  disconnect w
  = (Ok tt, with_adapters [] (with_trace (trace w ++ disconnect_calls (adapters w)) w)).
Proof. apply disconnect_all. Qed.

Lemma disconnect_calls_every_hook_witness :
  NoDup (JsMap.keys (adapters running))
  /\ trace (disconnect running).2
     = [LoggerConnect;
        AdapterConnect "fetch" {| inst_ref := 2; inst_of := fetch |};
        AdapterDisconnect "fetch" {| inst_ref := 2; inst_of := fetch |}]
  /\ adapters (disconnect running).2 = [].
Proof.
  assert (Hn : NoDup (JsMap.keys (adapters running))) by apply NoDup_singleton.
  split; [exact Hn|]. rewrite (disconnect_calls_every_hook running Hn).
  split; reflexivity.
Defined.

Lemma disconnectFrom_facts (x : NameOrFactory) (w : World) :
  let w1 := (disconnectFrom x w).2 in
  (disconnectFrom x w).1 = Ok tt
  /\ JsMap.get (name_of x) (adapters w1) = None
  /\ disconnectFrom x w1 = (Ok tt, w1)
  /\ (forall n, n <> name_of x -> JsMap.get n (adapters w1) = JsMap.get n (adapters w))
  /\ match JsMap.get (name_of x) (adapters w) with
     | None => w1 = w
     | Some a => trace w1 = (trace w ++ [AdapterDisconnect (name_of x) a])%list
     end.
Proof.
  simpl. rewrite disconnectFrom_by_name, disconnectFrom_eq.
  destruct (JsMap.get (name_of x) (adapters w)) as [a|] eqn:Hg; simpl.
  - split; [done|]. split; [apply get_delete|].
    split; [|split; [|done]].
    + rewrite disconnectFrom_eq. simpl. by rewrite get_delete.
    + intros n Hn. by apply get_delete_ne.
  - split; [done|]. split; [done|]. split; [|done].
    by rewrite disconnectFrom_eq, Hg.
Qed.

(** X2. [disconnectFrom] returns in every case; afterwards nothing is
    stored under the name, so that a second call changes nothing; the
    adapters stored under other names are untouched; and when nothing was
    stored under the name, the call changes nothing and calls no hook. *)
Theorem disconnectFrom_once (x : NameOrFactory) (w : World) :
  let w1 := (disconnectFrom x w).2 in
  (disconnectFrom x w).1 = Ok tt
  /\ JsMap.get (name_of x) (adapters w1) = None
  /\ disconnectFrom x w1 = (Ok tt, w1)
  /\ (forall n, n <> name_of x -> JsMap.get n (adapters w1) = JsMap.get n (adapters w))
  /\ match JsMap.get (name_of x) (adapters w) with
     | None => w1 = w
     | Some a => trace w1 = (trace w ++ [AdapterDisconnect (name_of x) a])%list
     end.
Proof. apply disconnectFrom_facts. Qed.

(** [connectTo] on a name: the two cases. *)
Lemma connectTo_unregistered (n : string) (w : World) :
  container w !! ("adapter:" ++ n) = None ->
  connectTo (ByName n) w
  = (Throw (PollyError ("Adapter matching the name `" ++ n ++ "` was not registered.")), w).
Proof.
  intros Hc. unfold connectTo. unfold bind at 1. simpl.
  unfold Container.has. rewrite bind_gets, Hc.
  rewrite bool_decide_false; [done|]. by intros [? ?].
Qed.

Lemma connectTo_by_factory (F : Factory) (w : World) :
  connectTo (ByFactory F) w
  = connectTo (ByName (fac_name F))
      (with_container (<[Container.key_of F := F]> (container w)) w).
Proof. reflexivity. Qed.

(** X3. [connectTo(name)] for a name under which no adapter factory is
    registered throws the error naming it and changes nothing: the
    adapter connected under that name, if any, is not disconnected. *)
Theorem connectTo_unknown_adapter (n : string) (w : World) :
  container w !! ("adapter:" ++ n) = None ->
  connectTo (ByName n) w
  = (Throw (PollyError ("Adapter matching the name `" ++ n ++ "` was not registered.")), w)
  /\ adapters (connectTo (ByName n) w).2 = adapters w
  /\ trace (connectTo (ByName n) w).2 = trace w.
Proof. intros Hc. by rewrite (connectTo_unregistered n w Hc). Qed.

Lemma connectTo_unknown_adapter_witness :
  container running !! ("adapter:" ++ "xhr") = None
  /\ (connectTo (ByName "xhr") running).1
     = Throw (PollyError "Adapter matching the name `xhr` was not registered.")
  /\ (connectTo (ByName "xhr") running).2 = running.
Proof.
  assert (Hc : container running !! ("adapter:" ++ "xhr") = None) by reflexivity.
  split; [exact Hc|].
  destruct (connectTo_unknown_adapter "xhr" running Hc) as (Heq & _).
  rewrite Heq. by split.
Defined.

(** X4. [connectTo(Factory)] with a factory of capability [adapter]
    always returns: the factory is registered under its key, a new
    instance of it is built, connected and stored under its name. *)
Theorem connectTo_adapter_factory (F : Factory) (w : World) :
  fac_type F = "adapter" ->
  let i := {| inst_ref := next_ref w; inst_of := F |} in
  let w' := (connectTo (ByFactory F) w).2 in
  (connectTo (ByFactory F) w).1 = Ok tt
  /\ container w' !! ("adapter:" ++ fac_name F) = Some F
  /\ JsMap.get (fac_name F) (adapters w') = Some i
  /\ exists evs, trace w' = (trace w ++ evs ++ [AdapterConnect (fac_name F) i])%list.
Proof.
  intros Ht. simpl. rewrite connectTo_by_factory.
  set (w0 := with_container _ w).
  assert (Hc : container w0 !! ("adapter:" ++ fac_name F) = Some F).
  { unfold w0, Container.key_of. simpl. rewrite Ht. simpl. apply lookup_insert_eq. }
  destruct (connectTo_fields (fac_name F) F w0 Hc) as (Ho & Ha & Htr & Hn & Hc').
  split; [done|]. split; [by rewrite Hc'|]. split.
  - rewrite Ha. apply get_app_new, get_delete.
  - eexists. exact Htr.
Qed.

Lemma connectTo_adapter_factory_witness :
  fac_type fetch = "adapter"
  /\ (connectTo (ByFactory fetch) boot).1 = Ok tt
  /\ JsMap.get "fetch" (adapters (connectTo (ByFactory fetch) boot).2)
     = Some {| inst_ref := 2; inst_of := fetch |}.
Proof.
  split; [reflexivity|].
  destruct (connectTo_adapter_factory fetch boot eq_refl) as (Ho & _ & Hg & _).
  split; [exact Ho|exact Hg].
Defined.

(** X5. Whatever [connectTo] ends in, the adapters stored under names
    other than the one it connects are the same before and after. *)
Theorem connectTo_other_names (x : NameOrFactory) (n : string) (w : World) :
  n <> name_of x ->
  JsMap.get n (adapters (connectTo x w).2) = JsMap.get n (adapters w).
Proof.
  intros Hne.
  assert (Hname : forall k w0, n <> k ->
            JsMap.get n (adapters (connectTo (ByName k) w0).2) = JsMap.get n (adapters w0)).
  { intros k w0 Hk. destruct (container w0 !! ("adapter:" ++ k)) as [F|] eqn:Hc.
    - destruct (connectTo_fields k F w0 Hc) as (_ & Ha & _). rewrite Ha.
      rewrite get_app_other by done. by apply get_delete_ne.
    - by rewrite (connectTo_unregistered k w0 Hc). }
  destruct x as [k|F]; simpl in Hne.
  - by apply Hname.
  - rewrite connectTo_by_factory. by rewrite Hname.
Qed.

Lemma connectTo_other_names_witness :
  "fetch" <> name_of (ByName "xhr")
  /\ JsMap.get "fetch" (adapters (connectTo (ByName "xhr") running).2)
     = Some {| inst_ref := 2; inst_of := fetch |}.
Proof.
  assert (Hne : "fetch" <> name_of (ByName "xhr")) by discriminate.
  split; [exact Hne|].
  rewrite (connectTo_other_names (ByName "xhr") "fetch" running Hne). reflexivity.
Defined.

(** ** What every call respects

    A relation between worlds that is reflexive and transitive, and that
    the elementary updates of the class respect, relates the world after
    any call of the public surface to the world before it. *)

Section Respect.
Context `{Collaborators}.
Variable R : World -> World -> Prop.
Hypothesis R_refl : forall w, R w w.
Hypothesis R_trans : forall w1 w2 w3, R w1 w2 -> R w2 w3 -> R w1 w3.
Hypothesis R_disconnectFrom : forall x w, R w (disconnectFrom x w).2.
Hypothesis R_connectTo : forall x w, R w (connectTo x w).2.
Hypothesis R_config : forall c w, R w (with_config c w).
Hypothesis R_register :
  forall F w, R w (with_container (<[Container.key_of F := F]> (container w)) w).
Hypothesis R_next_ref : forall n w, next_ref w <= n -> R w (with_next_ref n w).
Hypothesis R_persister : forall p w, R w (with_persister p w).
Hypothesis R_paused : forall p w, R w (with_paused p w).
Hypothesis R_requests : forall r w, R w (with_requests (_requests w ++ [r]) w).
Hypothesis R_log : forall e w, ~ is_adapter_hook e -> R w (with_trace (trace w ++ [e]) w).

Ltac chain :=
  repeat first
    [ apply satisfies_ret; exact R_refl
    | apply satisfies_gets; exact R_refl
    | apply satisfies_bind; [exact R_trans | | intros ?] ].

Lemma respects_any {A} (m : M A) :
  (forall w, R w (m w).2) -> (forall w, (m w).1 <> Stalled) ->
  satisfies any_error R m.
Proof.
  intros Hr Hs w. split; [apply Hr|]. specialize (Hs w). by destruct (m w).1.
Qed.

Lemma disconnectFrom_respects x : satisfies any_error R (disconnectFrom x).
Proof.
  apply respects_any; [apply R_disconnectFrom|]. intros w.
  by destruct (disconnectFrom_facts x w) as (-> & _).
Qed.

Lemma connectTo_respects x : satisfies any_error R (connectTo x).
Proof.
  apply respects_any; [apply R_connectTo|]. intros w.
  destruct (connectTo_keeps x w) as [_ Ho]. by destruct (connectTo x w).1.
Qed.

Lemma disconnect_respects : satisfies any_error R disconnect.
Proof.
  unfold disconnect. chain.
  apply satisfies_forEach; [exact R_refl|exact R_trans|intros n].
  apply disconnectFrom_respects.
Qed.

Lemma assert_respects msg c : satisfies any_error R (assert msg c).
Proof. apply satisfies_assert; [exact R_refl|done]. Qed.

Lemma new_respects F : satisfies any_error R (new F).
Proof.
  unfold new. chain. intros w. split; [|done]. simpl. apply R_next_ref. lia.
Qed.

Lemma handle_persister_respects : satisfies any_error R handle_persister.
Proof.
  unfold handle_persister.
  apply satisfies_bind; [exact R_trans|apply satisfies_gets; exact R_refl|intros p].
  destruct (truthy_ref p); [|apply satisfies_ret; exact R_refl].
  apply satisfies_bind; [exact R_trans| |intros name].
  { destruct p as [[n|F]|]; chain.
    apply satisfies_modify. intros w. apply R_register. }
  apply satisfies_bind; [exact R_trans|apply satisfies_gets; exact R_refl|intros b].
  apply satisfies_bind; [exact R_trans|apply assert_respects|intros _].
  apply satisfies_bind; [exact R_trans| |intros F].
  { unfold Container.lookup.
    apply satisfies_bind; [exact R_trans|apply satisfies_gets; exact R_refl|intros c].
    destruct (c !! _); [apply satisfies_ret; exact R_refl|by apply satisfies_throw]. }
  apply satisfies_bind; [exact R_trans|apply new_respects|intros i].
  apply satisfies_modify. intros w. apply R_persister.
Qed.

Lemma configure_respects c : satisfies any_error R (configure c).
Proof.
  unfold configure.
  apply satisfies_bind; [exact R_trans|apply satisfies_gets; exact R_refl|intros n].
  apply satisfies_bind; [exact R_trans|apply assert_respects|intros _].
  apply satisfies_bind; [exact R_trans|apply satisfies_gets; exact R_refl|intros m].
  apply satisfies_bind; [exact R_trans|apply assert_respects|intros _].
  apply satisfies_bind; [exact R_trans|apply disconnect_respects|intros _].
  apply satisfies_bind; [exact R_trans| |intros _].
  { apply satisfies_modify. intros w. apply R_config. }
  apply satisfies_bind; [exact R_trans|apply satisfies_gets; exact R_refl|intros l].
  apply satisfies_bind; [exact R_trans| |intros _; apply handle_persister_respects].
  destruct l as [l|].
  - apply satisfies_forEach; [exact R_refl|exact R_trans|intros x].
    apply connectTo_respects.
  - by apply satisfies_throw.
Qed.

Lemma stop_respects w : R w (stop w).2.
Proof.
  destruct (decide (mode w = Some MODES.STOPPED)) as [Hm|Hm].
  { rewrite stop_stopped by done. apply R_refl. }
  rewrite (stop_eq w Hm).
  destruct (disconnect_respects w) as [Hd _].
  set (wd := (disconnect w).2) in *.
  assert (Hl : R wd (with_trace (trace wd ++ [LoggerDisconnect]) wd))
    by (apply R_log; tauto).
  destruct (persister w) as [p|]; [|simpl; eauto].
  assert (Hp : R wd (with_trace (trace wd ++ [LoggerDisconnect; Persist p]) wd)).
  { eapply R_trans; [exact Hl|].
    pose proof (R_log (Persist p) (with_trace (trace wd ++ [LoggerDisconnect]) wd)) as Hlp.
    destruct wd. simpl in *. rewrite <- app_assoc in Hlp. apply Hlp. tauto. }
  destruct (persist p); simpl; eauto.
Qed.

Lemma run_respects op w : R w (run op w).2.
Proof.
  destruct op; unfold run.
  - unfold record. rewrite set_mode_throws. apply R_refl.
  - unfold replay. rewrite set_mode_throws. apply R_refl.
  - rewrite pause_throws. apply R_paused.
  - destruct (truthy_mode (PAUSED_MODE w)) eqn:Hp.
    + rewrite play_throws by done. apply R_refl.
    + rewrite play_unpaused by done. apply R_refl.
  - apply configure_respects.
  - apply stop_respects.
Qed.

Lemma registerRequest_respects w : R w (registerRequest w).2.
Proof.
  unfold registerRequest, bind, fresh, modify, ret. simpl.
  eapply R_trans; [apply (R_next_ref (S (next_ref w))); lia|].
  eapply R_trans; [apply (R_next_ref (S (S (next_ref w)))); simpl; lia|].
  apply (R_requests _ (with_next_ref _ (with_next_ref _ w))).
Qed.

Lemma call_respects c w : R w (call c w).
Proof.
  destruct c; simpl.
  - apply R_connectTo.
  - apply R_disconnectFrom.
  - apply disconnect_respects.
  - apply registerRequest_respects.
  - apply run_respects.
Qed.

Lemma call_all_respects cs w : R w (call_all cs w).
Proof.
  revert w. induction cs as [|c cs IH]; intros w; [apply R_refl|].
  simpl. eapply R_trans; [apply call_respects|apply IH].
Qed.
End Respect.

(** ** The adapters map and the log of hooks *)

(** What [connectTo] does, by its outcome. *)
Lemma connectTo_cases (x : NameOrFactory) (w : World) :
  let n := name_of x in
  let w' := (connectTo x w).2 in
  ((connectTo x w).1 = Ok tt
   /\ exists F,
        let i := {| inst_ref := next_ref w; inst_of := F |} in
        container w' !! ("adapter:" ++ n) = Some F
        /\ adapters w' = (JsMap.delete n (adapters w) ++ [(n, i)])%list
        /\ trace w'
           = (trace w
              ++ match JsMap.get n (adapters w) with
                 | Some i0 => [AdapterDisconnect n i0]
                 | None => []
                 end
              ++ [AdapterConnect n i])%list
        /\ next_ref w' = S (next_ref w))
  \/ ((connectTo x w).1
       = Throw (PollyError ("Adapter matching the name `" ++ n ++ "` was not registered."))
      /\ adapters w' = adapters w /\ trace w' = trace w /\ next_ref w' = next_ref w).
Proof.
  assert (Hname : forall k w0,
    ((connectTo (ByName k) w0).1 = Ok tt
     /\ exists F,
          container (connectTo (ByName k) w0).2 !! ("adapter:" ++ k) = Some F
          /\ adapters (connectTo (ByName k) w0).2
             = (JsMap.delete k (adapters w0)
                ++ [(k, {| inst_ref := next_ref w0; inst_of := F |})])%list
          /\ trace (connectTo (ByName k) w0).2
             = (trace w0
                ++ match JsMap.get k (adapters w0) with
                   | Some i0 => [AdapterDisconnect k i0]
                   | None => []
                   end
                ++ [AdapterConnect k {| inst_ref := next_ref w0; inst_of := F |}])%list
          /\ next_ref (connectTo (ByName k) w0).2 = S (next_ref w0))
    \/ ((connectTo (ByName k) w0).1
         = Throw (PollyError ("Adapter matching the name `" ++ k ++ "` was not registered."))
        /\ adapters (connectTo (ByName k) w0).2 = adapters w0
        /\ trace (connectTo (ByName k) w0).2 = trace w0
        /\ next_ref (connectTo (ByName k) w0).2 = next_ref w0)).
  { intros k w0. destruct (container w0 !! ("adapter:" ++ k)) as [F|] eqn:Hc.
    - left. destruct (connectTo_fields k F w0 Hc) as (Ho & Ha & Ht & Hn & Hc').
      split; [done|]. exists F. by rewrite Hc'.
    - right. by rewrite (connectTo_unregistered k w0 Hc). }
  simpl. destruct x as [k|F]; simpl.
  - apply Hname.
  - rewrite connectTo_by_factory.
    exact (Hname (fac_name F)
             (with_container (<[Container.key_of F := F]> (container w)) w)).
Qed.

Lemma active_app (e1 e2 : list Event) (act : list (string * Instance)) :
  active (e1 ++ e2) act = active e2 (active e1 act).
Proof.
  revert act. induction e1 as [|e e1 IH]; intros act; [done|].
  destruct e; simpl; apply IH.
Qed.

Lemma disconnectFrom_consistent (x : NameOrFactory) (w : World) :
  consistent w -> consistent (disconnectFrom x w).2.
Proof.
  intros [Hn Ha]. rewrite disconnectFrom_by_name, disconnectFrom_eq.
  destruct (JsMap.get (name_of x) (adapters w)) as [a|] eqn:Hg; [|done].
  split; simpl.
  - by apply NoDup_keys_delete.
  - rewrite active_app, Ha. simpl. by apply filter_entry_delete.
Qed.

Lemma connectTo_consistent (x : NameOrFactory) (w : World) :
  consistent w -> consistent (connectTo x w).2.
Proof.
  intros [Hn Ha].
  destruct (connectTo_cases x w) as [(_ & F & _ & Had & Htr & _)|(_ & Had & Htr & _)].
  - split.
    + rewrite Had. by apply NoDup_keys_reset.
    + rewrite Htr, Had, !active_app, Ha.
      destruct (JsMap.get (name_of x) (adapters w)) as [a|] eqn:Hg; simpl.
      * by rewrite filter_entry_delete.
      * by rewrite get_None_delete.
  - split; [by rewrite Had|by rewrite Htr, Had].
Qed.

(** X6. The adapters map and the log of hook calls stay in step: if the
    map holds one instance per name, exactly those connected and not
    disconnected since, then so it does after any sequence of
    [connectTo], [disconnectFrom], [disconnect], [registerRequest],
    [record], [replay], [pause], [play], [configure] and [stop] calls,
    whatever each one ends in. *)
Theorem adapters_follow_the_hooks `{Collaborators} (cs : list Call) (w : World) :
  consistent w -> consistent (call_all cs w).
Proof.
  apply (call_all_respects (fun w w' => consistent w -> consistent w')); try done.
  - auto.
  - intros x w0. apply disconnectFrom_consistent.
  - intros x w0. apply connectTo_consistent.
  - intros e w0 He [Hn Ha]. split; [done|]. simpl.
    rewrite active_app, Ha. by destruct e.
Qed.

Lemma adapters_follow_the_hooks_witness :
  consistent running
  /\ consistent
       (@call_all reliable
          [ConnectTo (ByName "fetch"); RegisterRequest; Run Pause;
           DisconnectFrom (ByName "xhr"); Run (Configure defaults); Run Stop]
          running).
Proof.
  assert (Hc : consistent running).
  { split; [apply NoDup_singleton|reflexivity]. }
  split; [exact Hc|]. by apply (@adapters_follow_the_hooks reliable).
Defined.

(** ** Tracked requests *)

(** X7. No call of the public surface removes or reorders a tracked
    request: the requests tracked before any sequence of calls are an
    initial segment of those tracked after it. *)
Theorem requests_are_never_removed `{Collaborators} (cs : list Call) (w : World) :
  _requests w `prefix_of` _requests (call_all cs w).
Proof.
  apply (call_all_respects (fun w w' => _requests w `prefix_of` _requests w')).
  - done.
  - intros w1 w2 w3 H12 H23. by transitivity (_requests w2).
  - intros x w0. destruct (disconnectFrom_keeps no_error x w0) as [(_ & _ & _ & -> & _) _].
    done.
  - intros x w0. destruct (connectTo_keeps x w0) as [(_ & _ & _ & -> & _) _]. done.
  - done.
  - done.
  - done.
  - done.
  - done.
  - intros r w0. simpl. by apply prefix_app_r.
  - done.
Qed.

(** X8. After a [registerRequest], [configure] fails with the error of
    its first precondition for good: whatever calls are made in between,
    it throws and changes nothing. *)
Theorem configure_is_closed_by_a_request `{Collaborators} (cs : list Call)
    (c : PollyConfig) (w : World) :
  let w1 := call_all cs (registerRequest w).2 in
  configure c w1 = (Throw (PollyError requests_handled), w1).
Proof.
  simpl. apply configure_requests_handled.
  pose proof (call_all_respects (fun w w' => _requests w <> [] -> _requests w' <> [])) as Hr.
  apply Hr; try done.
  - auto.
  - intros x w0. by destruct (disconnectFrom_keeps no_error x w0) as [(_ & _ & _ & -> & _) _].
  - intros x w0. by destruct (connectTo_keeps x w0) as [(_ & _ & _ & -> & _) _].
  - intros r w0 _. simpl. by destruct (_requests w0).
  - simpl. by destruct (_requests w).
Qed.

(** ** What [configure] leaves behind *)

Lemma configure_eq `{Collaborators} (c : PollyConfig) (w : World) :
  _requests w = [] -> mode w <> Some MODES.STOPPED ->
  let merged := mergeConfigs DefaultConfig (config w) c in
  let w2 := with_config merged (disconnect w).2 in
  configure c w
  = match cfg_adapters merged with
    | Some l => bind (forEach l connectTo) (fun _ => handle_persister) w2
    | None =>
        (Throw (TypeError "Cannot read properties of undefined (reading 'forEach')"), w2)
    end.
Proof.
  intros Hr Hm. simpl. unfold configure. rewrite bind_gets, Hr. simpl length.
  rewrite bool_decide_true by done. rewrite bind_assert_true, bind_gets.
  rewrite bool_decide_true by done. rewrite bind_assert_true.
  destruct (disconnect_ok w) as [Hd (Hc & _)]. rewrite (bind_ok _ _ _ _ _ Hd).
  unfold bind at 1. simpl. rewrite bind_gets. simpl. rewrite Hc.
  by destruct (cfg_adapters (mergeConfigs DefaultConfig (config w) c)).
Qed.

Lemma configure_ok_preconditions `{Collaborators} (c : PollyConfig) (w : World) :
  (configure c w).1 = Ok tt -> _requests w = [] /\ mode w <> Some MODES.STOPPED.
Proof.
  intros Ho. destruct (_requests w) as [|r rs] eqn:Hr.
  - split; [done|]. intros Hm. by rewrite configure_not_running in Ho.
  - rewrite configure_requests_handled in Ho; [done|]. by rewrite Hr.
Qed.

Lemma keys_reset_elem (k n : string) (i : Instance) (m : list (string * Instance)) :
  k ∈ JsMap.keys (JsMap.delete n m ++ [(n, i)]) <-> k ∈ JsMap.keys m \/ k = n.
Proof.
  assert (JsMap.keys (JsMap.delete n m ++ [(n, i)])
          = (JsMap.keys (JsMap.delete n m) ++ [n])%list) as ->
    by (unfold JsMap.keys; by rewrite fmap_app).
  rewrite elem_of_app, keys_delete, list_elem_of_filter, list_elem_of_singleton.
  destruct (decide (k = n)); tauto.
Qed.

Lemma forEach_connectTo_keys (l : list NameOrFactory) (w : World) (k : string) :
  (forEach l connectTo w).1 = Ok tt ->
  k ∈ JsMap.keys (adapters (forEach l connectTo w).2)
  <-> k ∈ JsMap.keys (adapters w) \/ k ∈ name_of <$> l.
Proof.
  revert w. induction l as [|x l IH]; intros w.
  - simpl. rewrite elem_of_nil. tauto.
  - simpl forEach. unfold bind.
    destruct (connectTo_cases x w) as [(Ho & F & _ & Ha & _)|(Ho & _)];
      destruct (connectTo x w) as [[[]|e|] w1]; simpl in *; try done.
    intros Hl. rewrite (IH w1 Hl), Ha, keys_reset_elem, elem_of_cons.
    tauto.
Qed.

Lemma handle_persister_frame :
  satisfies any_error
    (fun w w' => adapters w' = adapters w /\ config w' = config w
                 /\ trace w' = trace w /\ next_ref w <= next_ref w')
    handle_persister.
Proof.
  apply handle_persister_respects; try done.
  intros w1 w2 w3 (? & ? & ? & ?) (? & ? & ? & ?).
  repeat split; try congruence. lia.
Qed.

(** X9. When [configure] returns, the adapters map holds exactly the
    names of the merged adapter list: every adapter connected before is
    gone unless it is configured again, and each configured one is
    connected. *)
Theorem configure_connects_the_configured `{Collaborators} (c : PollyConfig) (w : World) :
  (configure c w).1 = Ok tt ->
  exists l,
    cfg_adapters (mergeConfigs DefaultConfig (config w) c) = Some l
    /\ forall k, k ∈ JsMap.keys (adapters (configure c w).2) <-> k ∈ name_of <$> l.
Proof.
  intros Ho. destruct (configure_ok_preconditions c w Ho) as [Hr Hm].
  rewrite (configure_eq c w Hr Hm) in Ho |- *. simpl in *.
  destruct (cfg_adapters _) as [l|]; [|done]. exists l. split; [done|]. intros k.
  unfold bind in *.
  set (w2 := with_config _ (disconnect w).2) in *.
  pose proof (forEach_connectTo_keys l w2 k) as Hk.
  destruct (forEach l connectTo w2) as [[[]|e|] w3]; simpl in *; try done.
  destruct (handle_persister_frame w3) as [(-> & _) _].
  rewrite Hk by done. unfold w2. simpl. rewrite disconnect_empties.
  unfold JsMap.keys at 1. simpl. rewrite elem_of_nil. tauto.
Qed.

Lemma configure_connects_the_configured_witness :
  let c := {| cfg_mode := None; cfg_adapters := None; cfg_persister := None |} in
  (@configure reliable c running).1 = Ok tt
  /\ forall k, k ∈ JsMap.keys (adapters (@configure reliable c running).2)
               <-> k ∈ ["fetch"].
Proof.
  simpl.
  assert (Ho : (@configure reliable
     {| cfg_mode := None; cfg_adapters := None; cfg_persister := None |}
     running).1 = Ok tt) by reflexivity.
  split; [exact Ho|].
  destruct (@configure_connects_the_configured reliable _ running Ho) as (l & Hl & Hk).
  injection Hl as <-. exact Hk.
Defined.

(** X10. Once its two preconditions hold, [configure] stores the merged
    configuration before anything else can fail: the configuration of
    the instance is the merged one however the call ends. *)
Theorem configure_stores_the_merged_config `{Collaborators} (c : PollyConfig) (w : World) :
  _requests w = [] -> mode w <> Some MODES.STOPPED ->
  config (configure c w).2 = mergeConfigs DefaultConfig (config w) c.
Proof.
  intros Hr Hm. rewrite (configure_eq c w Hr Hm). simpl.
  destruct (cfg_adapters _) as [l|]; [|done].
  set (w2 := with_config _ (disconnect w).2).
  assert (Hs : satisfies any_error (fun w w' => config w' = config w)
                 (bind (forEach l connectTo) (fun _ => handle_persister))).
  { apply satisfies_bind; [intros; congruence| |intros _].
    - apply satisfies_forEach; [done|intros; congruence|intros x].
      eapply satisfies_weaken; [| |apply connectTo_keeps]; [done|].
      by intros ? ? (? & _).
    - eapply satisfies_weaken; [| |apply handle_persister_frame]; [done|].
      by intros ? ? (_ & ? & _). }
  destruct (Hs w2) as [-> _]. done.
Qed.

Lemma configure_stores_the_merged_config_witness :
  _requests running = [] /\ mode running <> Some MODES.STOPPED
  /\ (@configure reliable
        {| cfg_mode := Some "RECORD"; cfg_adapters := None;
           cfg_persister := Some (ByName "s3") |} running).1
     = Throw (PollyError "Persister matching the name `s3` was not registered.")
  /\ mode (@configure reliable
        {| cfg_mode := Some "RECORD"; cfg_adapters := None;
           cfg_persister := Some (ByName "s3") |} running).2 = Some "RECORD".
Proof.
  split; [reflexivity|]. split; [discriminate|]. split; [reflexivity|].
  unfold mode.
  rewrite (@configure_stores_the_merged_config reliable _ running eq_refl);
    [reflexivity|discriminate].
Defined.

Lemma handle_persister_ok (w : World) :
  truthy_ref (cfg_persister (config w)) = true ->
  (handle_persister w).1 = Ok tt ->
  exists F,
    persister (handle_persister w).2 = Some {| inst_ref := next_ref w; inst_of := F |}
    /\ container (handle_persister w).2
         !! ("persister:" ++ match cfg_persister (config w) with
                             | Some x => name_of x
                             | None => ""
                             end) = Some F.
Proof.
  assert (Hname : forall n w0,
    (bind (Container.has ("persister:" ++ n)) (fun registered =>
       bind (assert ("Persister matching the name `" ++ n ++ "` was not registered.")
               registered) (fun _ =>
       bind (Container.lookup ("persister:" ++ n)) (fun F =>
       bind (new F) (fun p => modify (with_persister (Some p)))))) w0).1 = Ok tt ->
    exists F,
      persister (bind (Container.has ("persister:" ++ n)) (fun registered =>
         bind (assert ("Persister matching the name `" ++ n ++ "` was not registered.")
                 registered) (fun _ =>
         bind (Container.lookup ("persister:" ++ n)) (fun F =>
         bind (new F) (fun p => modify (with_persister (Some p)))))) w0).2
      = Some {| inst_ref := next_ref w0; inst_of := F |}
      /\ container (bind (Container.has ("persister:" ++ n)) (fun registered =>
         bind (assert ("Persister matching the name `" ++ n ++ "` was not registered.")
                 registered) (fun _ =>
         bind (Container.lookup ("persister:" ++ n)) (fun F =>
         bind (new F) (fun p => modify (with_persister (Some p)))))) w0).2
           !! ("persister:" ++ n) = Some F).
  { intros n w0. unfold Container.has. rewrite bind_gets.
    destruct (container w0 !! ("persister:" ++ n)) as [F|] eqn:Hc.
    - rewrite bool_decide_true by eauto. rewrite bind_assert_true.
      unfold Container.lookup, new, fresh, modify, bind, gets, ret. simpl.
      rewrite Hc. simpl. intros _. by exists F.
    - rewrite bool_decide_false by (by intros [? ?]). by rewrite bind_assert_false. }
  unfold handle_persister. rewrite bind_gets. intros ->.
  destruct (cfg_persister (config w)) as [[n|F0]|] eqn:Hp.
  - apply (Hname n w).
  - exact (Hname (fac_name F0)
             (with_container (<[Container.key_of F0 := F0]> (container w)) w)).
  - apply (Hname "" w).
Qed.

Lemma adapters_next_ref (l : list NameOrFactory) (w : World) :
  next_ref (disconnect w).2 = next_ref w
  /\ next_ref w <= next_ref (forEach l connectTo w).2.
Proof.
  split.
  - assert (Hs : satisfies any_error (fun w w' => next_ref w' = next_ref w) disconnect).
    { apply disconnect_respects; [done|intros; congruence|].
      intros x w0. rewrite disconnectFrom_by_name, disconnectFrom_eq.
      by destruct (JsMap.get _ _). }
    apply Hs.
  - assert (Hs : satisfies any_error (fun w w' => next_ref w <= next_ref w')
                   (forEach l connectTo)).
    { apply satisfies_forEach; [done|intros; lia|intros x].
      apply connectTo_respects. intros x0 w0.
      destruct (connectTo_cases x0 w0) as [(_ & F & _ & _ & _ & ->)|(_ & _ & _ & ->)]; lia. }
    apply Hs.
Qed.

(** X11. When [configure] returns and the merged configuration names a
    persister, the persister field holds an instance built during the
    call, so none that existed before it, of the factory registered under
    that persister name. *)
Theorem configure_builds_the_persister `{Collaborators} (c : PollyConfig) (w : World) :
  let merged := mergeConfigs DefaultConfig (config w) c in
  (configure c w).1 = Ok tt ->
  truthy_ref (cfg_persister merged) = true ->
  exists p,
    persister (configure c w).2 = Some p
    /\ next_ref w <= inst_ref p
    /\ container (configure c w).2
         !! ("persister:" ++ match cfg_persister merged with
                             | Some x => name_of x
                             | None => ""
                             end) = Some (inst_of p).
Proof.
  simpl. intros Ho Ht. destruct (configure_ok_preconditions c w Ho) as [Hr Hm].
  rewrite (configure_eq c w Hr Hm) in Ho |- *. simpl in *.
  destruct (cfg_adapters _) as [l|]; [|done].
  unfold bind in *.
  set (merged := mergeConfigs DefaultConfig (config w) c) in *.
  set (w2 := with_config merged (disconnect w).2) in *.
  destruct (adapters_next_ref l w) as [Hn _].
  destruct (adapters_next_ref l w2) as [_ Hn2].
  destruct (satisfies_forEach adapter_error keeps keeps_refl keeps_trans l
              connectTo connectTo_keeps w2) as [(Hc3 & _) _].
  destruct (forEach l connectTo w2) as [[[]|e|] w3]; simpl in *; try done.
  assert (Hcfg : config w3 = merged) by (by rewrite Hc3).
  rewrite <- Hcfg in Ht.
  destruct (handle_persister_ok w3 Ht Ho) as (F & Hp & Hc).
  eexists. split; [exact Hp|]. simpl. split; [lia|]. by rewrite <- Hcfg.
Qed.

Lemma configure_builds_the_persister_witness :
  (@configure reliable defaults running).1 = Ok tt
  /\ truthy_ref (cfg_persister (layered_merge defaults (config running) defaults)) = true
  /\ exists p, persister (@configure reliable defaults running).2 = Some p
               /\ next_ref running <= inst_ref p.
Proof.
  assert (Ho : (@configure reliable defaults running).1 = Ok tt) by reflexivity.
  split; [exact Ho|]. split; [reflexivity|].
  destruct (@configure_builds_the_persister reliable defaults running Ho eq_refl)
    as (p & Hp & Hn & _).
  exists p. split; [exact Hp|exact Hn].
Defined.

(** ** Shutdown, phase by phase *)

(** [stop] on an instance that is not STOPPED, up to its [await]. *)
Lemma stop_reaches_persist `{Collaborators} (w : World) :
  mode w <> Some MODES.STOPPED ->
  NoDup (JsMap.keys (adapters w)) ->
  let w' := with_adapters [] (with_trace (trace w ++ shutdown_calls w) w) in
  stop w
  = match persister w with
    | Some p =>
        match persist p with
        | Fulfils => (Throw (ReferenceError "uppercaseMode"), w')
        | Rejects r => (Throw (Rejection r), w')
        | NeverSettles => (Stalled, w')
        end
    | None => (Throw (ReferenceError "uppercaseMode"), w')
    end.
Proof.
  intros Hm Hn. simpl. rewrite (stop_eq w Hm). rewrite (disconnect_all w Hn).
  unfold shutdown_calls. destruct w as [fr ee nr tr se cf pm ct ad [p|] rq]; simpl.
  - rewrite <- !app_assoc. by destruct (persist p).
  - by rewrite <- !app_assoc.
Qed.

(** C1, as amended. When the instance is not STOPPED and the [persist] of
    its persister rejects, [stop()] rejects with that reason, having
    called the disconnect hook of every stored adapter, once each and in
    insertion order, then the logger's disconnect, then [persist], and
    nothing else; the adapters map is empty, the rest of the instance as
    it was: the mode is unchanged, not STOPPED. *)
Theorem stop_persist_failure `{Collaborators} (w : World) (p : Instance) (r : string) :
  mode w <> Some MODES.STOPPED ->
  NoDup (JsMap.keys (adapters w)) ->
  persister w = Some p ->
  persist p = Rejects r ->
  stop w
  = (Throw (Rejection r),
     with_adapters []
       (with_trace (trace w ++ disconnect_calls (adapters w)
                      ++ [LoggerDisconnect; Persist p]) w))
  /\ mode (stop w).2 = mode w
  /\ mode (stop w).2 <> Some MODES.STOPPED.
Proof.
  intros Hm Hn Hp Hr. rewrite (stop_reaches_persist w Hm Hn), Hp, Hr.
  unfold shutdown_calls. rewrite Hp. by repeat split.
Qed.

Lemma stop_persist_failure_witness :
  mode running <> Some MODES.STOPPED
  /\ NoDup (JsMap.keys (adapters running))
  /\ (@stop failing running).1 = Throw (Rejection "EIO")
  /\ trace (@stop failing running).2
     = [LoggerConnect;
        AdapterConnect "fetch" {| inst_ref := 2; inst_of := fetch |};
        AdapterDisconnect "fetch" {| inst_ref := 2; inst_of := fetch |};
        LoggerDisconnect;
        Persist {| inst_ref := 3; inst_of := fs |}]
  /\ mode (@stop failing running).2 = Some "REPLAY".
Proof.
  assert (Hm : mode running <> Some MODES.STOPPED) by discriminate.
  assert (Hn : NoDup (JsMap.keys (adapters running))) by apply NoDup_singleton.
  split; [exact Hm|]. split; [exact Hn|].
  destruct (@stop_persist_failure failing running
              {| inst_ref := 3; inst_of := fs |} "EIO" Hm Hn eq_refl eq_refl)
    as (Heq & _).
  rewrite Heq. by repeat split.
Defined.

(** X12. On an instance that is not STOPPED, [stop()] begins by calling
    the disconnect hook of every stored adapter, once each and in
    insertion order, then the logger's disconnect, then [persist] on the
    persister if there is one; the adapters map is empty afterwards.  If
    that [persist] never settles, [stop()] stays suspended on it: it
    makes no further call and leaves the rest of the instance, the mode
    included, as it was. *)
Theorem stop_phases `{Collaborators} (w : World) :
  mode w <> Some MODES.STOPPED ->
  NoDup (JsMap.keys (adapters w)) ->
  (trace w ++ shutdown_calls w)%list `prefix_of` trace (stop w).2
  /\ adapters (stop w).2 = []
  /\ (forall p, persister w = Some p -> persist p = NeverSettles ->
       stop w
       = (Stalled, with_adapters [] (with_trace (trace w ++ shutdown_calls w) w))).
Proof.
  intros Hm Hn. rewrite (stop_reaches_persist w Hm Hn).
  split; [|split].
  - destruct (persister w) as [p|]; [destruct (persist p)|]; done.
  - destruct (persister w) as [p|]; [destruct (persist p)|]; done.
  - intros p -> ->. done.
Qed.

Lemma stop_phases_witness :
  mode running <> Some MODES.STOPPED
  /\ NoDup (JsMap.keys (adapters running))
  /\ shutdown_calls running
     = [AdapterDisconnect "fetch" {| inst_ref := 2; inst_of := fetch |};
        LoggerDisconnect;
        Persist {| inst_ref := 3; inst_of := fs |}]
  /\ (trace running ++ shutdown_calls running)%list `prefix_of` trace (@stop reliable running).2
  /\ adapters (@stop reliable running).2 = [].
Proof.
  assert (Hm : mode running <> Some MODES.STOPPED) by discriminate.
  assert (Hn : NoDup (JsMap.keys (adapters running))) by apply NoDup_singleton.
  split; [exact Hm|]. split; [exact Hn|]. split; [reflexivity|].
  destruct (@stop_phases reliable running Hm Hn) as (Hpre & Ha & _).
  split; [exact Hpre|exact Ha].
Defined.

(** ** Construction *)

Lemma bind_bind {A B C} (m : M A) (f : A -> M B) (g : B -> M C) (w : World) :
  bind (bind m f) g w = bind m (fun a => bind (f a) g) w.
Proof. unfold bind. by destruct (m w) as [[a|e|] w1]. Qed.

Lemma bind_modify {B} (f : World -> World) (k : unit -> M B) (w : World) :
  bind (modify f) k w = k tt (f w).
Proof. reflexivity. Qed.

Lemma forEach_app_bind {A B} (l1 l2 : list A) (f : A -> M unit) (k : unit -> M B)
    (w : World) :
  bind (forEach (l1 ++ l2) f) k w
  = bind (forEach l1 f) (fun _ => bind (forEach l2 f) k) w.
Proof.
  revert w. induction l1 as [|x l1 IH]; intros w; [done|].
  simpl. rewrite !bind_bind. unfold bind at 1 3.
  destruct (f x w) as [[[]|e|] w1]; [apply IH|done|done].
Qed.

Lemma call_keeps E (eventName : string) (l : Listener) :
  satisfies E keeps (EventEmitter.call eventName l).
Proof. destruct l; simpl; body. Qed.

Lemma emitSync_keeps E (eventName : string) :
  satisfies E keeps (EventEmitter.emitSync eventName).
Proof.
  unfold EventEmitter.emitSync. body. apply call_keeps.
Qed.

Lemma logs_only_same P (w w' : World) : trace w' = trace w -> logs_only P w w'.
Proof. intros Ht. exists []. by rewrite app_nil_r. Qed.

Lemma logs_only_refl P (w : World) : logs_only P w w.
Proof. by apply logs_only_same. Qed.

Lemma logs_only_trans P (w1 w2 w3 : World) :
  logs_only P w1 w2 -> logs_only P w2 w3 -> logs_only P w1 w3.
Proof.
  intros (e1 & H1 & F1) (e2 & H2 & F2). exists (e1 ++ e2)%list.
  split; [by rewrite H2, H1, app_assoc|by apply Forall_app].
Qed.

Lemma emitSync_effect (eventName : string) (w : World) :
  let w' := (EventEmitter.emitSync eventName w).2 in
  EventEmitter.emitSync eventName w = (Ok tt, w')
  /\ keeps w w' /\ adapters w' = adapters w /\ next_ref w' = next_ref w
  /\ exists evs, trace w' = (trace w ++ evs)%list
                 /\ Forall (is_listener_of eventName) evs.
Proof.
  set (R := fun w w' : World =>
         keeps w w' /\ adapters w' = adapters w /\ next_ref w' = next_ref w
         /\ logs_only (is_listener_of eventName) w w').
  assert (Hrefl : forall w0, R w0 w0).
  { intros w0. split; [apply keeps_refl|]. split; [done|]. split; [done|].
    apply logs_only_refl. }
  assert (Htrans : forall w1 w2 w3, R w1 w2 -> R w2 w3 -> R w1 w3).
  { intros w1 w2 w3 (K1 & A1 & N1 & L1) (K2 & A2 & N2 & L2).
    split; [by eapply keeps_trans|]. split; [congruence|]. split; [congruence|].
    by eapply logs_only_trans. }
  assert (Hs : satisfies no_error R (EventEmitter.emitSync eventName)).
  { unfold EventEmitter.emitSync.
    apply satisfies_bind; [exact Htrans|by apply satisfies_gets|intros ls].
    apply satisfies_forEach; [exact Hrefl|exact Htrans|intros l].
    destruct l as [r F|r]; simpl; apply satisfies_modify; intros w0.
    - split; [by repeat split|]. split; [done|]. split; [done|].
      by apply logs_only_same.
    - split; [by repeat split|]. split; [done|]. split; [done|].
      exists [ListenerCalled eventName (ExternalListener r)].
      split; [done|]. by apply Forall_singleton. }
  destruct (satisfies_ok R _ w Hs) as ([] & Heq & K & A & N & L). simpl.
  split; [exact Heq|]. split; [exact K|]. split; [exact A|]. split; [exact N|].
  exact L.
Qed.

(** The constructor, given a configuration whose mode is STOPPED. *)
Lemma constructor_not_running `{Collaborators} (c : PollyConfig) (w : World) :
  cfg_mode c = Some MODES.STOPPED ->
  exists registered created w',
    constructor c w = (Throw (PollyError not_running), w')
    /\ adapters w' = [] /\ persister w' = None /\ _requests w' = []
    /\ next_ref w' = next_ref w
    /\ trace w' = (trace w ++ registered ++ [LoggerConnect] ++ created)%list
    /\ Forall (is_listener_of "register") registered
    /\ Forall (is_listener_of "create") created.
Proof.
  intros Hm. unfold constructor. rewrite !bind_modify.
  set (w0 := with_container _ _).
  destruct (emitSync_effect "register" w0)
    as (He1 & K1 & A1 & N1 & e1 & T1 & F1).
  rewrite (bind_ok _ _ _ _ _ He1). unfold log. rewrite !bind_modify.
  match goal with |- context [bind (EventEmitter.emitSync "create") _ ?w] =>
    set (w1 := w) end.
  destruct (emitSync_effect "create" w1)
    as (He2 & K2 & A2 & N2 & e2 & T2 & F2).
  rewrite (bind_ok _ _ _ _ _ He2).
  destruct K2 as (Hc2 & _ & Hp2 & Hr2 & _). destruct K1 as (Hc1 & _).
  exists e1, e2, (EventEmitter.emitSync "create" w1).2.
  split.
  { apply configure_not_running.
    - by rewrite Hr2.
    - unfold mode. rewrite Hc2. simpl. by rewrite Hc1. }
  split; [by rewrite A2|]. split; [by rewrite Hp2|]. split; [by rewrite Hr2|].
  split; [rewrite N2; simpl; by rewrite N1|].
  split; [|done]. rewrite T2. simpl. rewrite T1. simpl. by rewrite <- !app_assoc.
Qed.



(** The container never loses a key. *)
Section Grows.
Context `{Collaborators}.
Variable k : string.

Lemma grows_same w w' : container w' = container w -> grows k w w'.
Proof. unfold grows. by intros ->. Qed.

Lemma grows_register F w :
  grows k w (with_container (<[Container.key_of F := F]> (container w)) w).
Proof.
  unfold grows. simpl. rewrite lookup_insert_is_Some.
  destruct (decide (Container.key_of F = k)); auto.
Qed.

Lemma grows_connectTo x w : grows k w (connectTo x w).2.
Proof.
  assert (Hname : forall n w0, container (connectTo (ByName n) w0).2 = container w0).
  { intros n w0. destruct (container w0 !! ("adapter:" ++ n)) as [F|] eqn:Hc.
    - by destruct (connectTo_fields n F w0 Hc) as (_ & _ & _ & _ & ->).
    - by rewrite (connectTo_unregistered n w0 Hc). }
  unfold grows. destruct x as [n|F].
  - by rewrite Hname.
  - rewrite connectTo_by_factory, Hname. apply grows_register.
Qed.

Lemma grows_disconnectFrom x w : grows k w (disconnectFrom x w).2.
Proof.
  unfold grows. rewrite disconnectFrom_by_name, disconnectFrom_eq.
  by destruct (JsMap.get _ _).
Qed.

Lemma grows_call eventName l : satisfies any_error (grows k) (EventEmitter.call eventName l).
Proof.
  destruct l; simpl.
  - apply satisfies_modify. intros w. apply grows_register.
  - apply satisfies_modify. intros w. by apply grows_same.
Qed.

Lemma grows_constructor_rest c :
  satisfies any_error (grows k)
    (modify (with_adapters []) ;;
     modify (with_persister None) ;;
     modify (with_requests []) ;;
     log LoggerConnect ;;
     EventEmitter.emitSync "create" ;;
     configure c).
Proof.
  assert (Hrefl : forall w, grows k w w) by (intros w; by apply grows_same).
  assert (Htrans : forall w1 w2 w3, grows k w1 w2 -> grows k w2 w3 -> grows k w1 w3)
    by (unfold grows; auto).
  assert (Hmod : forall f, (forall w, container (f w) = container w) ->
            satisfies any_error (grows k) (modify f)).
  { intros f Hf. apply satisfies_modify. intros w. by apply grows_same. }
  do 4 (apply satisfies_bind; [exact Htrans|by apply Hmod|intros _]).
  apply satisfies_bind; [exact Htrans| |intros _].
  - unfold EventEmitter.emitSync.
    apply satisfies_bind; [exact Htrans|by apply satisfies_gets|intros ls].
    apply satisfies_forEach; [exact Hrefl|exact Htrans|intros l]. apply grows_call.
  - apply configure_respects;
      try (intros; by apply grows_same); try done.
    + apply grows_disconnectFrom.
    + apply grows_connectTo.
    + apply grows_register.
Qed.
End Grows.

(** The statics of the module: the memo table and the event emitter. *)
Lemma registration_statics (F : Factory) (w w' : World) :
  FACTORY_REGISTRATION w' = FACTORY_REGISTRATION w -> registration F w' = registration F w.
Proof. unfold registration. by intros ->. Qed.

Lemma listeners_statics (eventName : string) (w w' : World) :
  EVENT_EMITTER w' = EVENT_EMITTER w ->
  EventEmitter.listeners eventName w' = EventEmitter.listeners eventName w.
Proof. unfold EventEmitter.listeners. by intros ->. Qed.

Lemma call_all_statics `{Collaborators} (cs : list Call) (w : World) :
  FACTORY_REGISTRATION (call_all cs w) = FACTORY_REGISTRATION w
  /\ EVENT_EMITTER (call_all cs w) = EVENT_EMITTER w.
Proof.
  apply (call_all_respects
           (fun w w' => FACTORY_REGISTRATION w' = FACTORY_REGISTRATION w
                        /\ EVENT_EMITTER w' = EVENT_EMITTER w)); try done.
  - intros w1 w2 w3 [? ?] [? ?]. split; congruence.
  - intros x w0. by destruct (disconnectFrom_keeps no_error x w0)
      as [(_ & _ & _ & _ & ? & ? & _) _].
  - intros x w0. by destruct (connectTo_keeps x w0)
      as [(_ & _ & _ & _ & ? & ? & _) _].
Qed.

Lemma constructor_statics `{Collaborators} (c : PollyConfig) (w : World) :
  FACTORY_REGISTRATION (constructor c w).2 = FACTORY_REGISTRATION w
  /\ EVENT_EMITTER (constructor c w).2 = EVENT_EMITTER w.
Proof.
  set (R := fun w w' : World =>
         FACTORY_REGISTRATION w' = FACTORY_REGISTRATION w
         /\ EVENT_EMITTER w' = EVENT_EMITTER w).
  assert (Hrefl : forall w0, R w0 w0) by done.
  assert (Htrans : forall w1 w2 w3, R w1 w2 -> R w2 w3 -> R w1 w3).
  { intros w1 w2 w3 [? ?] [? ?]. split; congruence. }
  assert (Hemit : forall ev, satisfies any_error R (EventEmitter.emitSync ev)).
  { intros ev. eapply satisfies_weaken; [| |apply (emitSync_keeps any_error ev)]; [done|].
    by intros w0 w' (_ & _ & _ & _ & ? & ? & _). }
  assert (Hs : satisfies any_error R (constructor c)).
  { unfold constructor.
    do 3 (apply satisfies_bind; [exact Htrans|by apply satisfies_modify|intros _]).
    apply satisfies_bind; [exact Htrans|apply Hemit|intros _].
    do 4 (apply satisfies_bind; [exact Htrans|by apply satisfies_modify|intros _]).
    apply satisfies_bind; [exact Htrans|apply Hemit|intros _].
    apply configure_respects; try done.
    - intros x w0. by destruct (disconnectFrom_keeps no_error x w0)
        as [(_ & _ & _ & _ & ? & ? & _) _].
    - intros x w0. by destruct (connectTo_keeps x w0)
        as [(_ & _ & _ & _ & ? & ? & _) _]. }
  apply Hs.
Qed.

(** An instance is given the factory of every installation callback
    subscribed to the register event when it is constructed. *)
Lemma subscribed_factory_is_installed `{Collaborators} (F : Factory) (r : nat)
    (c : PollyConfig) (w : World) :
  InstallFactory r F ∈ EventEmitter.listeners "register" w ->
  is_Some (container (constructor c w).2 !! Container.key_of F).
Proof.
  intros Hin. apply list_elem_of_split in Hin as (l1 & l2 & Hls).
  unfold constructor. rewrite !bind_modify.
  set (w0 := with_container ∅ _).
  unfold EventEmitter.emitSync. rewrite bind_bind, bind_gets.
  change (EventEmitter.listeners "register" w0) with (EventEmitter.listeners "register" w).
  rewrite Hls, forEach_app_bind.
  assert (Hs : satisfies no_error anything (forEach l1 (EventEmitter.call "register"))).
  { apply satisfies_forEach; [done|done|intros l].
    eapply satisfies_weaken; [| |apply (call_keeps no_error)]; done. }
  destruct (satisfies_ok anything _ w0 Hs) as ([] & Heq & _).
  rewrite (bind_ok _ _ _ _ _ Heq). simpl forEach.
  rewrite !bind_bind. simpl EventEmitter.call. unfold Container.register.
  rewrite bind_modify.
  match goal with |- is_Some (container (bind (forEach l2 ?f) ?k ?w2).2 !! _) =>
    assert (Hg : satisfies any_error (grows (Container.key_of F))
                   (bind (forEach l2 f) k));
    [|destruct (Hg w2) as [Hg2 _]; apply Hg2; simpl; rewrite lookup_insert_eq; eauto]
  end.
  apply satisfies_bind; [unfold grows; auto| |intros _].
  - apply satisfies_forEach; [intros ?; by apply grows_same|unfold grows; auto|intros l].
    apply grows_call.
  - apply grows_constructor_rest.
Qed.

Lemma registration_app (G' G : Factory) (l : Listener) (w w' : World) :
  FACTORY_REGISTRATION w' = (FACTORY_REGISTRATION w ++ [(G, l)])%list ->
  registration G' w'
  = match registration G' w with
    | Some x => Some x
    | None => if bool_decide (G = G') then Some l else None
    end.
Proof.
  unfold registration. intros ->. generalize (FACTORY_REGISTRATION w). intros regs.
  induction regs as [|[G0 l0] regs IH]; simpl.
  - by destruct (bool_decide (G = G')).
  - destruct (bool_decide (G0 = G')); [done|exact IH].
Qed.

(** Registered and not unregistered since: the callback stays subscribed. *)
Lemma proceed_subscribed `{Collaborators} (F : Factory) (a : Process) (w : World) :
  a <> Unregister F ->
  memo_ok w /\ (exists r, InstallFactory r F ∈ EventEmitter.listeners "register" w) ->
  memo_ok (proceed w a)
  /\ (exists r, InstallFactory r F ∈ EventEmitter.listeners "register" (proceed w a)).
Proof.
  intros Ha [Hmemo [r Hin]].
  assert (Hsame : forall w',
            FACTORY_REGISTRATION w' = FACTORY_REGISTRATION w ->
            EVENT_EMITTER w' = EVENT_EMITTER w ->
            memo_ok w'
            /\ (exists r, InstallFactory r F ∈ EventEmitter.listeners "register" w')).
  { intros w' Hf He. split.
    - intros G. unfold memoized_for. rewrite (registration_statics G w w' Hf). apply Hmemo.
    - exists r. by rewrite (listeners_statics "register" w w' He). }
  destruct a as [c|cs|G|G]; simpl.
  - destruct (constructor_statics c w). by apply Hsame.
  - destruct (call_all_statics cs w). by apply Hsame.
  - destruct (registration G w) as [cb|] eqn:Hr.
    + rewrite (register_known G cb w Hr). split.
      * intros G'. exact (Hmemo G').
      * exists r. unfold EventEmitter.listeners at 1. simpl.
        rewrite lookup_insert_eq. simpl. apply elem_of_app. by left.
    + rewrite (register_new G w Hr). split.
      * intros G'. unfold memoized_for.
        rewrite (registration_app G' G (InstallFactory (next_ref w) G)
                   (with_next_ref (S (next_ref w)) w)); [|done].
        change (registration G' (with_next_ref (S (next_ref w)) w))
          with (registration G' w).
        destruct (Hmemo G') as [->|[r' ->]]; [|eauto].
        case_bool_decide as HG; [subst G'; eauto|by left].
      * exists r. unfold EventEmitter.listeners at 1. simpl.
        rewrite lookup_insert_eq. simpl. apply elem_of_app. by left.
  - assert (HG : G <> F) by congruence.
    destruct (registration G w) as [cb|] eqn:Hr.
    + destruct (unregister_known G cb w Hr) as (-> & _). split.
      * intros G'. exact (Hmemo G').
      * exists r. unfold EventEmitter.listeners at 1. simpl.
        rewrite lookup_insert_eq. simpl. apply list_elem_of_filter.
        split; [|done]. intros <-.
        destruct (Hmemo G) as [Hn|[r' Hs]]; rewrite Hr in *; [done|].
        injection Hs as [= _ ->]. done.
    + rewrite (unregister_unknown G w Hr). simpl. split; [done|eauto].
Qed.

(** X15. After [Polly.register(F)], and until a [Polly.unregister(F)],
    every instance constructed has [F]'s key in its container, whatever
    its configuration and however its constructor ends, and whatever
    goes on in between: instances constructed and used, other factories
    registered and unregistered. *)
Theorem registered_factory_is_installed `{Collaborators} (F : Factory)
    (acts : list Process) (c : PollyConfig) (w : World) :
  memo_ok w ->
  Forall (fun a => a <> Unregister F) acts ->
  is_Some (container (constructor c (proceed_all acts (register F w).2)).2
             !! Container.key_of F).
Proof.
  intros Hmemo Hacts.
  assert (Hreg : memo_ok (register F w).2
            /\ exists r, InstallFactory r F
                         ∈ EventEmitter.listeners "register" (register F w).2).
  { destruct (Hmemo F) as [Hn|[r Hr]].
    - destruct (register_first F w Hn) as (_ & Hf & _). split.
      + intros G. unfold memoized_for.
        rewrite (registration_app G F _ w _ Hf).
        destruct (Hmemo G) as [->|[r' ->]]; [|eauto].
        case_bool_decide as HG; [subst G; eauto|by left].
      + rewrite (register_new F w Hn). simpl. eexists.
        unfold EventEmitter.listeners at 1. simpl. rewrite lookup_insert_eq. simpl.
        apply elem_of_app. right. by left.
    - destruct (register_again F _ w Hr) as (_ & Hf & _). split.
      + intros G. unfold memoized_for. rewrite (registration_statics G w _ Hf).
        apply Hmemo.
      + rewrite (register_known F _ w Hr). simpl. eexists.
        unfold EventEmitter.listeners at 1. simpl. rewrite lookup_insert_eq. simpl.
        apply elem_of_app. right. by left. }
  revert Hreg. generalize ((register F w).2). intros w1.
  induction Hacts as [|a acts Ha _ IH] in w1 |- *; intros Hinv.
  - simpl. destruct Hinv as [_ [r Hin]].
    by apply (subscribed_factory_is_installed F r).
  - simpl. apply IH. by apply proceed_subscribed.
Qed.

Lemma registered_factory_is_installed_witness :
  memo_ok boot
  /\ Forall (fun a => a <> Unregister fetch)
       [Construct defaults; Register fs; Use [ConnectTo (ByName "fetch")];
        Unregister fs]
  /\ container
       (@constructor reliable defaults
          (@proceed_all reliable
             [Construct defaults; Register fs; Use [ConnectTo (ByName "fetch")];
              Unregister fs]
             (register fetch boot).2)).2
     !! "adapter:fetch" = Some fetch
  /\ is_Some
       (container
          (@constructor reliable defaults
             (@proceed_all reliable
                [Construct defaults; Register fs; Use [ConnectTo (ByName "fetch")];
                 Unregister fs]
                (register fetch boot).2)).2
        !! Container.key_of fetch).
Proof.
  assert (Hm : memo_ok boot) by (intros G; by left).
  assert (Ha : Forall (fun a => a <> Unregister fetch)
                 [Construct defaults; Register fs; Use [ConnectTo (ByName "fetch")];
                  Unregister fs]) by (repeat constructor; discriminate).
  split; [exact Hm|]. split; [exact Ha|]. split; [reflexivity|].
  exact (@registered_factory_is_installed reliable fetch _ defaults boot Hm Ha).
Defined.

(** ** Unregistering and registering again *)

(** X16. [Polly.unregister(F)] does not forget the callback memoized
    for [F]: [FACTORY_REGISTRATION] is as before, and a [Polly.register(F)]
    after it subscribes that same callback again, which then has exactly
    one subscription. *)
Theorem unregister_keeps_the_callback (F : Factory) (cb : Listener) (w : World) :
  registration F w = Some cb ->
  let w1 := (unregister F w).2 in
  let w2 := (register F w1).2 in
  FACTORY_REGISTRATION w1 = FACTORY_REGISTRATION w
  /\ registration F w2 = Some cb
  /\ FACTORY_REGISTRATION w2 = FACTORY_REGISTRATION w
  /\ subscriptions "register" cb w2 = 1.
Proof.
  intros Hr. simpl.
  destruct (unregister_known F cb w Hr) as (Heq & _ & Hs).
  assert (Hf1 : FACTORY_REGISTRATION (unregister F w).2 = FACTORY_REGISTRATION w)
    by (by rewrite Heq).
  assert (Hr1 : registration F (unregister F w).2 = Some cb)
    by (unfold registration; by rewrite Hf1).
  destruct (register_again F cb _ Hr1) as (_ & Hf2 & Hr2 & Hs2).
  split; [done|]. split; [done|]. split; [congruence|]. by rewrite Hs2, Hs.
Qed.

Lemma unregister_keeps_the_callback_witness :
  registration fetch (register fetch boot).2 = Some (InstallFactory 2 fetch)
  /\ EventEmitter.listeners "register"
       (register fetch (unregister fetch (register fetch boot).2).2).2
     = [InstallFactory 2 fetch]
  /\ subscriptions "register" (InstallFactory 2 fetch)
       (register fetch (unregister fetch (register fetch boot).2).2).2 = 1.
Proof.
  assert (Hr : registration fetch (register fetch boot).2 = Some (InstallFactory 2 fetch))
    by reflexivity.
  split; [exact Hr|]. split; [reflexivity|].
  by destruct (unregister_keeps_the_callback fetch _ _ Hr) as (_ & _ & _ & Hs).
Defined.

(** ** The recording name *)

Lemma set_recordingName_id `{Naming} (name : string) (this : Identity) :
  RECORDING_ID this = guidForRecording <$> RECORDING_NAME this ->
  RECORDING_ID (set_recordingName name this).2
  = guidForRecording <$> RECORDING_NAME (set_recordingName name this).2.
Proof.
  intros Hid. unfold set_recordingName. by destruct (validateRecordingName name).
Qed.

(** X17. The recording identifier is always the one derived from the
    recording name: this holds of a new instance and after any sequence
    of assignments to [recordingName], accepted or rejected.  An
    assignment that [validateRecordingName] rejects throws its error and
    changes neither field; one that it accepts sets the name and the
    identifier derived from it. *)
Theorem recording_id_follows_the_name `{Naming} (names : list string) (this : Identity) :
  (RECORDING_ID this = guidForRecording <$> RECORDING_NAME this ->
   recordingId (rename_all names this)
   = guidForRecording <$> recordingName (rename_all names this))
  /\ (forall name e, validateRecordingName name = Some e ->
       set_recordingName name this = (Throw e, this))
  /\ (forall name, validateRecordingName name = None ->
       set_recordingName name this
       = (Ok tt, {| RECORDING_NAME := Some name;
                    RECORDING_ID := Some (guidForRecording name) |})).
Proof.
  split; [|split].
  - unfold recordingId, recordingName.
    revert this. induction names as [|name names IH]; intros this Hid; [done|].
    simpl. apply IH. by apply set_recordingName_id.
  - intros name e He. unfold set_recordingName. by rewrite He.
  - intros name He. unfold set_recordingName. by rewrite He.
Qed.

Lemma recording_id_follows_the_name_witness :
  RECORDING_ID unnamed = @guidForRecording naming <$> RECORDING_NAME unnamed
  /\ recordingName (@rename_all naming ["tape"; ""; "reel"] unnamed) = Some "reel"
  /\ recordingId (@rename_all naming ["tape"; ""; "reel"] unnamed)
     = @guidForRecording naming
         <$> recordingName (@rename_all naming ["tape"; ""; "reel"] unnamed)
  /\ @validateRecordingName naming "" = Some (PollyError "Invalid recording name")
  /\ @set_recordingName naming "" (@rename_all naming ["tape"; ""; "reel"] unnamed)
     = (Throw (PollyError "Invalid recording name"),
        @rename_all naming ["tape"; ""; "reel"] unnamed).
Proof.
  destruct (@recording_id_follows_the_name naming ["tape"; ""; "reel"] unnamed)
    as (Hid & _).
  destruct (@recording_id_follows_the_name naming []
              (@rename_all naming ["tape"; ""; "reel"] unnamed)) as (_ & Hrej & _).
  split; [reflexivity|]. split; [reflexivity|].
  split; [exact (Hid eq_refl)|].
  split; [reflexivity|]. by apply Hrej.
Defined.

(** ** More on flushing *)

Lemma promise_state_settled (w : World) (a : Activity) (p : nat) :
  promise_state w p <> Pending -> promise_state (act w a) p = promise_state w p.
Proof.
  intros Hp. destruct a as [|q ok]; [done|].
  unfold act, settle, modify. simpl.
  destruct (settled w !! q) as [b|] eqn:Hq; [done|].
  unfold promise_state in *. simpl.
  destruct (decide (q = p)) as [->|Hne].
  - by rewrite Hq in Hp.
  - by rewrite lookup_insert_ne.
Qed.

Lemma promise_state_later (more : list Activity) (w : World) (p : nat) :
  promise_state w p <> Pending -> promise_state (later more w) p = promise_state w p.
Proof.
  revert w. induction more as [|a more IH]; intros w Hp; [done|].
  simpl. fold (later more (act w a)).
  rewrite IH; rewrite promise_state_settled; done.
Qed.

Lemma flush_state_eq (f : Flush) (w : World) :
  flush_state f w
  = if bool_decide (Forall (fun p => promise_state w p <> Pending) (awaited f))
    then Fulfilled else Pending.
Proof.
  unfold flush_state.
  replace ((fun p => then_NOOP (promise_state w p)) <$> awaited f)
    with (then_NOOP <$> (promise_state w <$> awaited f))
    by (by rewrite <- list_fmap_compose).
  rewrite Promise_all_then_NOOP.
  assert (Hiff : Forall (fun s => s <> Pending) (promise_state w <$> awaited f)
                 <-> Forall (fun p => promise_state w p <> Pending) (awaited f))
    by (by rewrite Forall_fmap).
  by rewrite (bool_decide_ext _ _ Hiff).
Qed.

(** X18. A [flush()] that has been fulfilled stays fulfilled: no request
    registered and no promise settled afterwards changes its state. *)
Theorem flush_stays_fulfilled (f : Flush) (more : list Activity) (w : World) :
  flush_state f w = Fulfilled ->
  flush_state f (later more w) = Fulfilled.
Proof.
  rewrite !flush_state_eq. case_bool_decide as Hall; [intros _|done].
  rewrite bool_decide_true; [done|].
  eapply Forall_impl; [exact Hall|]. intros p Hp. simpl in *.
  by rewrite promise_state_later.
Qed.

Lemma flush_stays_fulfilled_witness :
  flush_state {| awaited := [5] |}
    (later [Settles 5 false] (registerRequest running).2) = Fulfilled
  /\ flush_state {| awaited := [5] |}
       (later [Registers; Settles 5 true; Settles 7 false]
          (later [Settles 5 false] (registerRequest running).2)) = Fulfilled.
Proof.
  assert (Hf : flush_state {| awaited := [5] |}
                 (later [Settles 5 false] (registerRequest running).2) = Fulfilled)
    by reflexivity.
  split; [exact Hf|]. by apply flush_stays_fulfilled.
Defined.

(** X19. A [flush()] called right after a [registerRequest] covers that
    request: as long as its promise is pending, the flush is pending. *)
Theorem flush_waits_for_the_last_request (w : World) (since : list Activity) :
  let r := {| req_ref := next_ref w; req_promise := S (next_ref w) |} in
  let w1 := (registerRequest w).2 in
  let f := {| awaited := req_promise <$> _requests w1 |} in
  promise_state (later since w1) (req_promise r) = Pending ->
  registerRequest w = (Ok r, w1) /\ flush w1 = (Ok f, w1)
  /\ flush_state f (later since w1) = Pending.
Proof.
  simpl. intros Hp. split; [reflexivity|]. split; [reflexivity|].
  rewrite flush_state_eq. rewrite bool_decide_false; [done|].
  simpl. rewrite fmap_app, Forall_app. intros [_ Hl]. simpl in Hl.
  rewrite Forall_singleton in Hl. by apply Hl.
Qed.

Lemma flush_waits_for_the_last_request_witness :
  promise_state (later [Registers; Settles 9 true] (registerRequest running).2) 5 = Pending
  /\ flush_state {| awaited := [5] |}
       (later [Registers; Settles 9 true] (registerRequest running).2) = Pending.
Proof.
  assert (Hp : promise_state
                 (later [Registers; Settles 9 true] (registerRequest running).2) 5
               = Pending) by reflexivity.
  split; [exact Hp|].
  by destruct (flush_waits_for_the_last_request running
                 [Registers; Settles 9 true] Hp) as (_ & _ & Hf).
Defined.

(** ** The order of construction, and the instances [configure] builds *)

Lemma emitSync_logs (eventName : string) :
  satisfies no_error (logs_only (is_listener_of eventName))
    (EventEmitter.emitSync eventName).
Proof.
  unfold EventEmitter.emitSync.
  apply satisfies_bind; [apply logs_only_trans| |intros ls].
  { apply satisfies_gets, logs_only_refl. }
  apply satisfies_forEach; [apply logs_only_refl|apply logs_only_trans|intros l].
  destruct l as [r F|r]; simpl.
  - apply satisfies_modify. intros w. by apply logs_only_same.
  - apply satisfies_modify. intros w. exists [ListenerCalled eventName (ExternalListener r)].
    split; [done|]. by apply Forall_singleton.
Qed.

Lemma configure_logs `{Collaborators} (c : PollyConfig) (w : World) :
  logs_only is_adapter_hook w (configure c w).2.
Proof.
  apply configure_respects;
    try (intros; by apply logs_only_same); try apply logs_only_refl;
    try apply logs_only_trans.
  - intros x w0. destruct (disconnectFrom_facts x w0) as (_ & _ & _ & _ & Ht).
    destruct (JsMap.get (name_of x) (adapters w0)) as [a|].
    + eexists. split; [exact Ht|]. by apply Forall_singleton.
    + rewrite Ht. apply logs_only_refl.
  - intros x w0.
    destruct (connectTo_cases x w0) as [(_ & F & _ & _ & Ht & _)|(_ & _ & Ht & _)].
    + eexists. split; [exact Ht|]. apply Forall_app. split.
      * destruct (JsMap.get _ _); [by apply Forall_singleton|done].
      * by apply Forall_singleton.
    + by apply logs_only_same.
Qed.


(** X21. Past its preconditions, [configure] keeps no adapter instance:
    every instance in the adapters map afterwards was built during the
    call, however the call ends. *)
Theorem configure_rebuilds_every_adapter `{Collaborators} (c : PollyConfig) (w : World) :
  _requests w = [] -> mode w <> Some MODES.STOPPED ->
  Forall (fun e => next_ref w <= inst_ref e.2) (adapters (configure c w).2).
Proof.
  intros Hr Hm. rewrite (configure_eq c w Hr Hm). simpl.
  set (merged := mergeConfigs DefaultConfig (config w) c).
  set (w2 := with_config merged (disconnect w).2).
  set (built := fun w' : World =>
         next_ref w <= next_ref w'
         /\ Forall (fun e => next_ref w <= inst_ref e.2) (adapters w')).
  assert (H2 : built w2).
  { split; simpl.
    - destruct (adapters_next_ref [] w) as [-> _]. done.
    - by rewrite disconnect_empties. }
  destruct (cfg_adapters merged) as [l|]; [|apply H2].
  assert (Hs : satisfies any_error (fun w w' => built w -> built w')
                 (bind (forEach l connectTo) (fun _ => handle_persister))).
  { apply satisfies_bind; [auto| |intros _].
    - apply satisfies_forEach; [auto|auto|intros x].
      apply connectTo_respects. intros x0 w0 [Hn Hf]. unfold built.
      destruct (connectTo_cases x0 w0)
        as [(_ & F & _ & Ha & _ & Hn')|(_ & Ha & _ & Hn')]; rewrite Ha, Hn'.
      + split; [lia|]. apply Forall_app. split.
        * apply Forall_forall. intros e He.
          apply list_elem_of_filter in He as [_ He].
          rewrite Forall_forall in Hf. by apply Hf.
        * by apply Forall_singleton.
      + by split.
    - eapply satisfies_weaken; [| |apply handle_persister_frame]; [done|].
      intros w0 w' (Ha & _ & _ & Hn) [Hn0 Hf]. unfold built.
      split; [lia|by rewrite Ha]. }
  destruct (Hs w2) as [Hb _]. by apply Hb.
Qed.

Lemma configure_rebuilds_every_adapter_witness :
  let c := {| cfg_mode := None; cfg_adapters := None; cfg_persister := None |} in
  _requests running = [] /\ mode running <> Some MODES.STOPPED
  /\ adapters running = [("fetch", {| inst_ref := 2; inst_of := fetch |})]
  /\ adapters (@configure reliable c running).2
     = [("fetch", {| inst_ref := 4; inst_of := fetch |})]
  /\ Forall (fun e => next_ref running <= inst_ref e.2)
       (adapters (@configure reliable c running).2).
Proof.
  assert (Hm : mode running <> Some MODES.STOPPED) by discriminate.
  simpl. split; [reflexivity|]. split; [exact Hm|]. split; [reflexivity|].
  split; [reflexivity|].
  exact (@configure_rebuilds_every_adapter reliable _ running eq_refl Hm).
Defined.
